(** * Lapped transforms: a model of [utils.py] and its verification

    The module builds MDCT / DCT-IV kernels and manipulates framed signals
    through NumPy views whose shape and strides are rewritten without
    touching the underlying buffer.  The model keeps exactly that structure:

    - a heap of buffers, and arrays that are (buffer, offset, shape, strides)
      descriptors, so that two descriptors may address the same cell;
    - a state-and-exception monad for the functions that allocate (copies)
      or write in place ([transform]);
    - kernels as shape-plus-entry-function matrices over the reals, which
      idealise IEEE doubles.

    Strides are counted in elements, not bytes (every array here has the
    same item size). *)

From Stdlib Require Import ZArith Lia Reals Lra.
From stdpp Require Import base tactics option list list_numbers.

Local Open Scope Z_scope.

(** ** Exceptions and results *)

(** [MemoryFault] is not a Python exception: it marks an access outside the
    buffer an array was built on, which NumPy does not detect
    ([as_strided] performs no bounds check). *)
Inductive exn : Type :=
  | ValueError
  | ZeroDivisionError
  | MemoryFault.

Inductive result (X : Type) : Type :=
  | Ok (x : X)
  | Raise (e : exn).
Arguments Ok {X} x.
Arguments Raise {X} e.

Definition is_ok {X} (r : result X) : bool :=
  match r with Ok _ => true | Raise _ => false end.

(** Python's [a // b] on integers: floor division, an exception on zero. *)
Definition floordiv (a b : Z) : result Z :=
  if b =? 0 then Raise ZeroDivisionError else Ok (a / b).

(** [np.arange(n)]: empty when [n <= 0]. *)
Definition arange (n : Z) : list Z := seqZ 0 n.

(** ** Array descriptors *)

(** Buffers are named by their index in the heap. *)
Abbreviation loc := nat (only parsing).

(** A two-dimensional [ndarray]. *)
Record ndarray : Type := NdArray {
  buf : loc;
  offset : Z;
  shape : Z * Z;
  strides : Z * Z
}.

(** A one-dimensional [ndarray], as returned by [ravel]. *)
Record flatarray : Type := FlatArray {
  fbuf : loc;
  foffset : Z;
  flen : Z;
  fstride : Z
}.

(** What [as_strided] takes from its first argument: the data pointer. *)
Class ArrayLike (T : Type) : Type := {
  data_buf : T -> loc;
  data_offset : T -> Z
}.

#[export] Instance ndarray_like : ArrayLike ndarray :=
  {| data_buf := buf; data_offset := offset |}.
#[export] Instance flatarray_like : ArrayLike flatarray :=
  {| data_buf := fbuf; data_offset := foffset |}.

(** [np.lib.stride_tricks.as_strided(x, shape, strides)]: a new descriptor on
    the buffer of [x].  Negative dimensions are refused; nothing else is
    checked. *)
Definition as_strided {T} `{ArrayLike T} (x : T) (shp str : Z * Z)
  : result ndarray :=
  if (0 <=? shp.1) && (0 <=? shp.2)
  then Ok (NdArray (data_buf x) (data_offset x) shp str)
  else Raise ValueError.

(** Strides of a freshly allocated C-ordered array of the given shape. *)
Definition c_strides (shp : Z * Z) : Z * Z :=
  (if shp.2 =? 0 then 1 else shp.2, 1).

(** NumPy's C-contiguity flag. *)
Definition c_contiguous (a : ndarray) : bool :=
  let '(r, c) := shape a in
  let '(s0, s1) := strides a in
  (r =? 0) || (c =? 0) ||
  (((c =? 1) || (s1 =? 1)) && ((r =? 1) || (s0 =? c))).

(** Element [(i, j)] of a 2-D array lives at this position of its buffer. *)
Definition addr (a : ndarray) (i j : Z) : Z :=
  offset a + i * (strides a).1 + j * (strides a).2.

Definition faddr (f : flatarray) (k : Z) : Z :=
  foffset f + k * fstride f.

(** The largest number of buffer cells a non-empty view with non-negative
    strides reaches, counted from its data pointer. *)
Definition extent (a : ndarray) : Z :=
  if (shape a).1 * (shape a).2 =? 0 then 0
  else ((shape a).1 - 1) * (strides a).1 + ((shape a).2 - 1) * (strides a).2 + 1.

(** ** The heap and its monad

    The heap is the list of the buffers allocated so far. *)
Abbreviation heap A := (list (list A)) (only parsing).

Section Heap.
Context {A : Type}.

Definition M (X : Type) : Type := heap A -> result (X * heap A).

Definition retM {X} (x : X) : M X := fun h => Ok (x, h).
Definition raiseM {X} (e : exn) : M X := fun _ => Raise e.
Definition bindM {X Y} (m : M X) (k : X -> M Y) : M Y :=
  fun h => match m h with
           | Ok (x, h') => k x h'
           | Raise e => Raise e
           end.
Definition liftR {X} (r : result X) : M X :=
  fun h => match r with Ok x => Ok (x, h) | Raise e => Raise e end.

(** A new buffer; its location is the next free index. *)
Definition alloc (b : list A) : M loc :=
  fun h => Ok (length h, h ++ [b]).

(** ** Reading through a descriptor *)

Definition cell (b : list A) (o : Z) : option A :=
  if decide (0 <= o) then b !! Z.to_nat o else None.

Definition peek (h : heap A) (l : loc) (o : Z) : option A :=
  h !! l ≫= fun b => cell b o.

Definition get (h : heap A) (a : ndarray) (i j : Z) : option A :=
  peek h (buf a) (addr a i j).

Definition row_of (h : heap A) (a : ndarray) (i : Z) : option (list A) :=
  mapM (get h a i) (arange (shape a).2).

Definition rows_of (h : heap A) (a : ndarray) : option (list (list A)) :=
  mapM (row_of h a) (arange (shape a).1).

Definition elems_of (h : heap A) (f : flatarray) : option (list A) :=
  mapM (fun k => peek h (fbuf f) (faddr f k)) (arange (flen f)).

Definition read_rows (a : ndarray) : M (list (list A)) :=
  fun h => match rows_of h a with
           | Some rs => Ok (rs, h)
           | None => Raise MemoryFault
           end.

Definition read_row (a : ndarray) (i : Z) : M (list A) :=
  fun h => match row_of h a i with
           | Some r => Ok (r, h)
           | None => Raise MemoryFault
           end.

(** ** Writing through a descriptor *)

Definition cell_set (b : list A) (o : Z) (v : A) : option (list A) :=
  if decide (0 <= o < Z.of_nat (length b))
  then Some (<[Z.to_nat o := v]> b) else None.

Fixpoint cells_set (b : list A) (ws : list (Z * A)) : option (list A) :=
  match ws with
  | [] => Some b
  | (o, v) :: ws' =>
      match cell_set b o v with
      | Some b' => cells_set b' ws'
      | None => None
      end
  end.

End Heap.

Arguments M A X : clear implicits.

Notation "'do' x <- m ; k" := (bindM m (fun x => k))
  (at level 10, x name, m at level 100, k at level 200).

(** ** Matrices as values

    Transform matrices are never written to by this module, so they are
    modelled by their logical content: a shape and an entry function. *)
Record matrix (A : Type) : Type := Matrix {
  mshape : Z * Z;
  entry : Z -> Z -> A
}.
Arguments Matrix {A} mshape entry.
Arguments mshape {A} m.
Arguments entry {A} m i j.

Definition mrow {A} (T : matrix A) (k : Z) : list A :=
  map (entry T k) (arange (mshape T).2).

Definition mrows {A} (T : matrix A) : list (list A) :=
  map (mrow T) (arange (mshape T).1).

Section Views.
Context {A : Type}.

(** The inner product used by [@]; summation order is whatever the
    numerical back end does, so it is a parameter. *)
Variable dot : list A -> list A -> A.

(** ** ndarray methods *)

(** [a.copy()]: the logical content, in row-major order, in a new buffer. *)
Definition ndarray_copy (a : ndarray) : M A ndarray :=
  do rs <- read_rows a;
  do l <- alloc (concat rs);
  retM (NdArray l 0 (shape a) (c_strides (shape a))).

(** [a.ravel()]: a view when [a] is C-contiguous, else a copy. *)
Definition ravel (a : ndarray) : M A flatarray :=
  if c_contiguous a
  then retM (FlatArray (buf a) (offset a) ((shape a).1 * (shape a).2) 1)
  else
    do rs <- read_rows a;
    do l <- alloc (concat rs);
    retM (FlatArray l 0 ((shape a).1 * (shape a).2) 1).

(** [T @ v] for a 2-D [T] and a 1-D [v]. *)
Definition matvec (T : matrix A) (v : list A) : list A :=
  map (fun k => dot (mrow T k) v) (arange (mshape T).1).

(** [a[i, :] = y], with NumPy's broadcasting of a length-1 right-hand
    side. *)
Definition broadcast_row (c : Z) (y : list A) : result (list A) :=
  if Z.of_nat (length y) =? c then Ok y
  else match y with
       | [v] => Ok (replicate (Z.to_nat c) v)
       | _ => Raise ValueError
       end.

Definition write_row (a : ndarray) (i : Z) (y : list A) : M A unit :=
  fun h =>
    match h !! buf a with
    | Some b =>
        match cells_set b (zip (map (addr a i) (arange (shape a).2)) y) with
        | Some b' => Ok (tt, <[buf a := b']> h)
        | None => Raise MemoryFault
        end
    | None => Raise MemoryFault
    end.

Definition set_row (a : ndarray) (i : Z) (y : list A) : M A unit :=
  do y' <- liftR (broadcast_row (shape a).2 y);
  write_row a i y'.

(** ** The functions of [utils.py] *)

Definition lap (x : ndarray) (L : Z) (copy : bool) : M A ndarray :=
  do x <- (if copy then ndarray_copy x else retM x);
  liftR (as_strided x ((shape x).1 - L + 1, (shape x).2 * L) (strides x)).

Definition unlap (x : ndarray) (L : Z) (copy : bool) : M A ndarray :=
  do q <- liftR (floordiv (shape x).2 L);
  do outval <- liftR (as_strided x ((shape x).1 + L - 1, q) (strides x));
  if copy then ndarray_copy outval else retM outval.

(** One iteration of the loop of [transform]: [x[i, :] = T @ x[i, :]]. *)
Definition transform_row (x : ndarray) (T : matrix A) (i : Z) : M A unit :=
  if negb ((mshape T).2 =? (shape x).2) then raiseM ValueError
  else
    do r <- read_row x i;
    set_row x i (matvec T r).

Fixpoint transform_rows (x : ndarray) (T : matrix A) (idx : list Z)
  : M A unit :=
  match idx with
  | [] => retM tt
  | i :: idx' => do _ <- transform_row x T i; transform_rows x T idx'
  end.

Definition transform (x : ndarray) (T : matrix A) : M A ndarray :=
  do _ <- transform_rows x T (arange (shape x).1);
  retM x.

Definition flatten (x : ndarray) (L : Z) (copy : bool) : M A flatarray :=
  do u <- unlap x L copy;
  ravel u.

Definition lap_like {T} `{ArrayLike T} (x : T) (y : ndarray) : M A ndarray :=
  liftR (as_strided x (shape y) (strides y)).

Definition copy (x : ndarray) (L : Z) : M A ndarray :=
  do new <- flatten x 2 true;
  lap_like new x.

End Views.

Section ElementAccess.
Context {A : Type}.

(** [a[i, j] = v], one element written through a descriptor. *)
Definition setitem (a : ndarray) (i j : Z) (v : A) : M A unit :=
  fun h =>
    match h !! buf a with
    | Some b =>
        match cell_set b (addr a i j) v with
        | Some b' => Ok (tt, <[buf a := b']> h)
        | None => Raise MemoryFault
        end
    | None => Raise MemoryFault
    end.

(** Every cell a view of non-negative strides reaches lies inside the buffer
    it points into. *)
Definition in_bounds (h : heap A) (a : ndarray) : bool :=
  match h !! buf a with
  | Some b =>
      (0 <=? offset a) && (offset a + extent a <=? Z.of_nat (length b))
  | None => false
  end.

(** All rows have [c] entries. *)
Definition uniform (c : Z) (rows : list (list A)) : Prop :=
  Forall (fun r => Z.of_nat (length r) = c) rows.

(** Two heaps that differ at most in the content of buffer [l]. *)
Definition same_but (l : loc) (h h' : heap A) : Prop :=
  length h' = length h /\
  (forall k, k <> l -> h' !! k = h !! k) /\
  length <$> h' !! l = length <$> h !! l.

End ElementAccess.

(** ** The sequential recurrence of a lapped in-place transform

    This definition follows the specification's words, not the code: frames
    are consumed left to right, each step transforms the half carried over
    from the previous step's output followed by the next untouched frame,
    keeps the first half of the product and carries the second half on. *)
Section Recurrence.
Context {A : Type}.
Variable dot : list A -> list A -> A.

Fixpoint seq_recurrence (T : matrix A) (c : nat) (carry : list A)
  (frames : list (list A)) : list (list A) :=
  match frames with
  | [] => [carry]
  | f :: frames' =>
      let y := matvec dot T (carry ++ f) in
      take c y :: seq_recurrence T c (drop c y) frames'
  end.

(** The half carried out of the last step of the recurrence. *)
Fixpoint carry_after (T : matrix A) (c : nat) (carry : list A)
  (frames : list (list A)) : list A :=
  match frames with
  | [] => carry
  | f :: frames' =>
      carry_after T c (drop c (matvec dot T (carry ++ f))) frames'
  end.

End Recurrence.

(** ** The folding matrix: [make_twoframe] *)

Definition bindR {X Y} (r : result X) (k : X -> result Y) : result Y :=
  match r with Ok x => k x | Raise e => Raise e end.

Notation "'try' x <- m ; k" := (bindR m (fun x => k))
  (at level 10, x name, m at level 100, k at level 200).

(** Python's clipping of one bound of a slice over a dimension of size
    [len]. *)
Definition slice_index (i len : Z) : Z :=
  if i <? 0 then Z.max (i + len) 0 else Z.min i len.

(** [start:stop] over a dimension of size [len], as (first index, count);
    [None] is an omitted bound. *)
Definition slice (start stop : option Z) (len : Z) : Z * Z :=
  let lo := match start with Some s => slice_index s len | None => 0 end in
  let hi := match stop with Some s => slice_index s len | None => len end in
  (lo, Z.max (hi - lo) 0).

Section Folding.
Context {A : Type}.
Variables zero one : A.

(** [np.eye(n)] *)
Definition eye (n : Z) : matrix A :=
  Matrix (n, n) (fun i j => if i =? j then one else zero).

(** [m[rs, cs]] for two slices. *)
Definition getitem2 (m : matrix A) (rs cs : Z * Z) : matrix A :=
  Matrix (rs.2, cs.2) (fun i j => entry m (rs.1 + i) (cs.1 + j)).

(** A right-hand-side dimension fits a target dimension when they are equal
    or when it is one (broadcasting). *)
Definition fits (n target : Z) : bool := (n =? target) || (n =? 1).

(** [m[rs, cs] = v] *)
Definition setitem2 (m : matrix A) (rs cs : Z * Z) (v : matrix A)
  : result (matrix A) :=
  if fits (mshape v).1 rs.2 && fits (mshape v).2 cs.2
  then Ok (Matrix (mshape m) (fun i j =>
         if (rs.1 <=? i) && (i <? rs.1 + rs.2) &&
            (cs.1 <=? j) && (j <? cs.1 + cs.2)
         then entry v (if (mshape v).1 =? 1 then 0 else i - rs.1)
                      (if (mshape v).2 =? 1 then 0 else j - cs.1)
         else entry m i j))
  else Raise ValueError.

Definition make_twoframe (data : matrix A) (trim : bool)
  : result (matrix A) :=
  let rows := (mshape data).1 in
  let cols := (mshape data).2 in
  let N := rows / 2 in
  let out := eye cols in
  try out <- setitem2 out
      (slice (Some N) (Some (2 * N)) cols) (slice (Some N) (Some (3 * N)) cols)
      (getitem2 data (slice (Some N) None rows) (slice (Some (2 * N)) None cols));
  try out <- setitem2 out
      (slice (Some (2 * N)) (Some (3 * N)) cols)
      (slice (Some N) (Some (3 * N)) cols)
      (getitem2 data (slice None (Some N) rows) (slice None (Some (2 * N)) cols));
  Ok (if trim
      then getitem2 out (slice (Some N) (Some (- N)) cols)
                        (slice (Some N) (Some (- N)) cols)
      else out).

(** The entries the specification lists for the untrimmed result; this
    definition follows the specification's words, [make_twoframe] above
    follows the code. *)
Definition twoframe_entry (data : matrix A) (N i j : Z) : A :=
  if (N <=? i) && (i <? 2 * N) && (N <=? j) && (j <? 3 * N)
  then entry data i (2 * N + (j - N))
  else if (2 * N <=? i) && (i <? 3 * N) && (N <=? j) && (j <? 3 * N)
  then entry data (i - 2 * N) (j - N)
  else if i =? j then one else zero.

End Folding.

(** ** Kernels: [mdct] and [dct4]

    Doubles are idealised as real numbers.  What the theorems below say
    about shapes, about the integer shift and about which inputs raise does
    not depend on rounding. *)

(** [np.arange(n, dtype=float)] *)
Definition arange_float (n : Z) : list R := map IZR (arange n).

(** [np.meshgrid(xs, ys)] with the default ['xy'] indexing: two arrays of
    shape (len ys, len xs). *)
Definition meshgrid (xs ys : list R) : matrix R * matrix R :=
  let shp := (Z.of_nat (length ys), Z.of_nat (length xs)) in
  (Matrix shp (fun _ j => nth (Z.to_nat j) xs 0%R),
   Matrix shp (fun i _ => nth (Z.to_nat i) ys 0%R)).

Definition mdct (N : Z) : result (matrix R) :=
  let M := N * 2 in
  let shift := (- N) / 2 in
  let '(n, k) := meshgrid (arange_float M) (arange_float N) in
  if N =? 0 then Raise ZeroDivisionError
  else Ok (Matrix (mshape n) (fun i j =>
         (cos (PI / IZR N * (entry n i j + IZR shift + 1 / 2)
                          * (entry k i j + 1 / 2))
          / sqrt (IZR N / 2))%R)).

Definition dct4 (N : Z) (M : option Z) : result (matrix R) :=
  let M := match M with None => N | Some M => M end in
  let '(n, k) := meshgrid (arange_float M) (arange_float N) in
  if N =? 0 then Raise ZeroDivisionError
  else Ok (Matrix (mshape n) (fun i j =>
         (cos (PI / IZR N * (entry n i j + 1 / 2) * (entry k i j + 1 / 2))
          / sqrt (IZR N / 2))%R)).

(** The entry the kernel formula gives for a shift [s]. *)
Definition mdct_entry (N s k n : Z) : R :=
  (cos (PI / IZR N * (IZR n + IZR s + 1 / 2) * (IZR k + 1 / 2))
   / sqrt (IZR N / 2))%R.

(** ** Concrete inputs used by the examples below *)

(** The usual inner product on integers. *)
Definition zdot (u v : list Z) : Z := foldr Z.add 0 (zip_with Z.mul u v).

(** Three frames of two samples in one buffer. *)
Definition ex_heap : heap Z := [[10; 11; 12; 13; 14; 15]].
Definition ex_signal : ndarray := NdArray 0%nat 0 (3, 2) (2, 1).
Definition ex_frames : list (list Z) := [[10; 11]; [12; 13]; [14; 15]].

(** The views [lap] builds on [ex_signal] for overlap two and three. *)
Definition ex_lapped2 : ndarray := NdArray 0%nat 0 (2, 4) (2, 1).
Definition ex_lapped3 : ndarray := NdArray 0%nat 0 (1, 6) (2, 1).

(** Twice the identity plus the superdiagonal, in sizes 2 and 4. *)
Definition ex_band (n : Z) : matrix Z :=
  Matrix (n, n) (fun i j => if i =? j then 2 else if j =? i + 1 then 1 else 0).

(** Non-square transform matrices with two columns. *)
Definition ex_tall : matrix Z := Matrix (3, 2) (fun i j => i + j + 1).
Definition ex_flat : matrix Z := Matrix (1, 2) (fun i j => i + j + 1).

(** A 2-by-2 and a 2-by-4 folding input. *)
Definition ex_data22 : matrix Z := Matrix (2, 2) (fun _ _ => 7).
Definition ex_data24 : matrix Z := Matrix (2, 4) (fun i j => 10 * (i + 1) + j).

(** A two-element array next to the six-element one. *)
Definition ex_heap2 : heap Z := [[10; 11; 12; 13; 14; 15]; [1; 2]].
Definition ex_short : ndarray := NdArray 1%nat 0 (1, 2) (2, 1).

(** * Verification *)

(** ** Cells, segments and rows *)

Section HeapFacts.
Context {A : Type}.
Implicit Types (b p q r y : list A) (h : heap A) (rows : list (list A)).

Lemma cell_nat b (n : nat) : cell b (Z.of_nat n) = b !! n.
Proof.
  unfold cell. case_decide; [|lia]. by rewrite Nat2Z.id.
Qed.

Lemma cell_Some_bounds b o v :
  cell b o = Some v -> 0 <= o < Z.of_nat (length b).
Proof.
  unfold cell. case_decide; [|done]. intros Hl.
  apply lookup_lt_Some in Hl. lia.
Qed.

Lemma peek_buffer h l b o : h !! l = Some b -> peek h l o = cell b o.
Proof. unfold peek. by intros ->. Qed.

(** Reading a run of consecutive cells gives the segment stored there. *)
Lemma read_segment p r q :
  mapM (cell (p ++ r ++ q))
       (seqZ (Z.of_nat (length p)) (Z.of_nat (length r))) = Some r.
Proof.
  apply mapM_Some_2, Forall2_same_length_lookup_2.
  - rewrite length_seqZ. lia.
  - intros i o v Ho Hv. apply lookup_seqZ in Ho as [-> Hi].
    replace (Z.of_nat (length p) + Z.of_nat i)
      with (Z.of_nat (length p + i)) by lia.
    rewrite cell_nat, lookup_app_r by lia.
    replace (length p + i - length p)%nat with i by lia.
    rewrite lookup_app_l; [done|]. apply lookup_lt_Some in Hv. lia.
Qed.

(** Writing a run of consecutive cells replaces the segment stored there. *)
Lemma write_segment r : forall p q y,
  length y = length r ->
  cells_set (p ++ r ++ q)
    (zip (seqZ (Z.of_nat (length p)) (Z.of_nat (length r))) y)
  = Some (p ++ y ++ q).
Proof.
  induction r as [|a r IH]; intros p q [|v y] Hlen; simplify_eq/=; [done|].
  rewrite seqZ_cons by lia. simpl.
  unfold cell_set. rewrite decide_True; last first.
  { rewrite length_app. simpl. lia. }
  rewrite Nat2Z.id.
  replace (<[length p:=v]> (p ++ a :: r ++ q)) with ((p ++ [v]) ++ r ++ q).
  2:{ rewrite <- (Nat.add_0_r (length p)) at 1. rewrite insert_app_r. simpl.
      by rewrite <- app_assoc. }
  replace (Z.succ (Z.of_nat (length p))) with (Z.of_nat (length (p ++ [v]))).
  2:{ rewrite length_app. simpl. lia. }
  replace (Z.pred (Z.of_nat (S (length r))))
    with (Z.of_nat (length r)) by lia.
  rewrite IH by done. by rewrite <- app_assoc.
Qed.

Lemma mapM_fmap_compose {X Y Z'} (f : Y -> option Z') (g : X -> Y) (l : list X) :
  mapM f (g <$> l) = mapM (f ∘ g) l.
Proof.
  induction l as [|x l IH]; [done|].
  change (mapM f (g <$> x :: l))
    with (f (g x) ≫= fun v => mapM f (g <$> l) ≫= fun k => Some (v :: k)).
  by rewrite IH.
Qed.

(** A row whose column stride is one occupies consecutive cells. *)
Lemma row_addresses (a : ndarray) (i : Z) :
  (strides a).2 = 1 ->
  addr a i <$> arange (shape a).2
  = seqZ (offset a + i * (strides a).1) (shape a).2.
Proof.
  intros Hs. unfold arange.
  rewrite <- (Z.add_0_r (offset a + i * (strides a).1)) at 1.
  rewrite <- fmap_add_seqZ. apply list_fmap_ext. intros _ j _.
  unfold addr. rewrite Hs. lia.
Qed.

Lemma row_of_cells h a i b :
  h !! buf a = Some b ->
  row_of h a i = mapM (cell b) (addr a i <$> arange (shape a).2).
Proof.
  intros Hb. unfold row_of. rewrite mapM_fmap_compose.
  apply mapM_ext. intros j. unfold get. simpl. by apply peek_buffer.
Qed.

Lemma uniform_concat_length (c : Z) rows :
  uniform c rows -> Z.of_nat (length (concat rows)) = Z.of_nat (length rows) * c.
Proof.
  induction 1 as [|r rows Hr _ IH]; simpl; [done|].
  rewrite length_app. lia.
Qed.


Lemma row_of_empty h a i : (shape a).2 = 0 -> row_of h a i = Some [].
Proof. unfold row_of. by intros ->. Qed.

Lemma row_of_segment h a i p r q :
  h !! buf a = Some (p ++ r ++ q) ->
  (strides a).2 = 1 ->
  offset a + i * (strides a).1 = Z.of_nat (length p) ->
  (shape a).2 = Z.of_nat (length r) ->
  row_of h a i = Some r.
Proof.
  intros Hb Hs Ho Hc.
  rewrite (row_of_cells _ _ _ _ Hb), row_addresses by done.
  rewrite Ho, Hc. apply read_segment.
Qed.

Lemma uniform_nil rows : uniform 0 rows -> concat rows = [].
Proof.
  induction 1 as [|r rows Hr _ IH]; simpl; [done|].
  rewrite IH. destruct r; simpl in *; [done|lia].
Qed.

Lemma uniform_app (c : Z) rows1 rows2 :
  uniform c (rows1 ++ rows2) <-> uniform c rows1 /\ uniform c rows2.
Proof. apply Forall_app. Qed.

(** The rows of a C-ordered array are the chunks of its buffer. *)
Lemma rows_of_framed h a pre rows post :
  h !! buf a = Some (pre ++ concat rows ++ post) ->
  offset a = Z.of_nat (length pre) ->
  (shape a).1 = Z.of_nat (length rows) ->
  uniform (shape a).2 rows ->
  strides a = c_strides (shape a) ->
  rows_of h a = Some rows.
Proof.
  intros Hb Ho Hr Hu Hs.
  apply mapM_Some_2, Forall2_same_length_lookup_2.
  { unfold arange. rewrite length_seqZ. lia. }
  intros k i r Hi Hk. apply lookup_seqZ in Hi as [-> Hlt]. simpl.
  pose proof (Forall_lookup_1 _ _ _ _ Hu Hk) as Hlen. simpl in Hlen.
  destruct (decide ((shape a).2 = 0)) as [Hz|Hnz].
  { rewrite row_of_empty by done. destruct r; simpl in *; [done|lia]. }
  unfold c_strides in Hs. rewrite (proj2 (Z.eqb_neq _ _) Hnz) in Hs.
  rewrite <- (take_drop_middle _ _ _ Hk) in Hb, Hu.
  apply uniform_app in Hu as [Hu1 _].
  rewrite concat_app in Hb. simpl in Hb.
  rewrite <- !app_assoc in Hb. rewrite app_assoc in Hb.
  eapply row_of_segment; [exact Hb| | |done].
  - by rewrite Hs.
  - rewrite Hs. simpl. rewrite length_app, Nat2Z.inj_add.
    rewrite (uniform_concat_length _ _ Hu1).
    rewrite length_take_le; [lia|]. apply lookup_lt_Some in Hk. lia.
Qed.

Lemma rows_of_shape h a rows :
  rows_of h a = Some rows ->
  length rows = Z.to_nat (shape a).1 /\
  Forall (fun r => length r = Z.to_nat (shape a).2) rows.
Proof.
  intros Hrows. split.
  - apply length_mapM in Hrows. unfold arange in Hrows.
    by rewrite length_seqZ in Hrows.
  - apply mapM_Some_1 in Hrows. apply Forall_lookup. intros k r Hk.
    destruct (Forall2_lookup_r _ _ _ _ _ Hrows Hk) as (i & _ & Hrow).
    apply length_mapM in Hrow. unfold arange in Hrow.
    by rewrite length_seqZ in Hrow.
Qed.

Lemma rows_of_uniform h a rows :
  rows_of h a = Some rows -> 0 <= (shape a).1 -> 0 <= (shape a).2 ->
  (shape a).1 = Z.of_nat (length rows) /\ uniform (shape a).2 rows.
Proof.
  intros Hrows Hr Hc. apply rows_of_shape in Hrows as [Hlen Hall].
  split; [lia|]. eapply Forall_impl; [exact Hall|].
  intros r Hl. simpl in Hl. lia.
Qed.

(** Allocation never disturbs what existing descriptors show. *)
Lemma peek_extend h k l o v :
  peek h l o = Some v -> peek (h ++ k) l o = Some v.
Proof.
  unfold peek. destruct (h !! l) as [b|] eqn:Hb; [|done].
  by rewrite (lookup_app_l_Some _ _ _ _ Hb).
Qed.

Lemma rows_of_extend h k a rows :
  rows_of h a = Some rows -> rows_of (h ++ k) a = Some rows.
Proof.
  intros Hrows. apply mapM_Some in Hrows. apply mapM_Some.
  eapply Forall2_impl; [exact Hrows|]. intros i r Hrow. simpl in *.
  apply mapM_Some in Hrow. apply mapM_Some.
  eapply Forall2_impl; [exact Hrow|]. intros j v. apply peek_extend.
Qed.

Lemma ndarray_copy_ok h a rows :
  rows_of h a = Some rows ->
  ndarray_copy a h
  = Ok (NdArray (length h) 0 (shape a) (c_strides (shape a)),
        h ++ [concat rows]).
Proof.
  intros Hrows. unfold ndarray_copy, bindM, read_rows, alloc, retM.
  by rewrite Hrows.
Qed.

(** A fresh copy shows the rows it was made from. *)
Lemma rows_of_fresh h rows shp :
  shp.1 = Z.of_nat (length rows) -> uniform shp.2 rows ->
  rows_of (h ++ [concat rows]) (NdArray (length h) 0 shp (c_strides shp))
  = Some rows.
Proof.
  intros Hr Hu. apply (rows_of_framed _ _ [] rows []); simpl; try done.
  rewrite app_nil_r. apply list_lookup_middle. done.
Qed.

Lemma c_strides_contiguous l o shp :
  c_contiguous (NdArray l o shp (c_strides shp)) = true.
Proof.
  destruct shp as [r c]. unfold c_contiguous, c_strides. simpl.
  destruct (c =? 0) eqn:Hc; simpl.
  - by rewrite orb_true_r.
  - rewrite Z.eqb_refl. by rewrite !orb_true_r.
Qed.

Lemma elems_of_whole h l b n :
  h !! l = Some b -> n = Z.of_nat (length b) ->
  elems_of h (FlatArray l 0 n 1) = Some b.
Proof.
  intros Hb ->. unfold elems_of. simpl.
  rewrite (mapM_ext _ (cell b)).
  - pose proof (read_segment [] b []) as Hseg. simpl in Hseg.
    by rewrite app_nil_r in Hseg.
  - intros k. rewrite (peek_buffer _ _ _ _ Hb). f_equal. unfold faddr. simpl. lia.
Qed.

End HeapFacts.

Section RoundTrip.
Context {A : Type}.

Lemma lap_copy_ok (h : heap A) x L rows :
  rows_of h x = Some rows ->
  0 <= (shape x).1 - L + 1 -> 0 <= (shape x).2 * L ->
  lap x L true h
  = Ok (NdArray (length h) 0 ((shape x).1 - L + 1, (shape x).2 * L)
                (c_strides (shape x)),
        h ++ [concat rows]).
Proof.
  intros Hrows Hr Hc. unfold lap, bindM.
  rewrite (ndarray_copy_ok _ _ _ Hrows). unfold liftR, as_strided. simpl.
  rewrite (proj2 (Z.leb_le _ _) Hr), (proj2 (Z.leb_le _ _) Hc). done.
Qed.

Lemma unlap_view_ok (h : heap A) v L r c :
  L <> 0 -> shape v = (r, c * L) -> 0 <= r + L - 1 -> 0 <= c ->
  unlap v L false h
  = Ok (NdArray (buf v) (offset v) (r + L - 1, c) (strides v), h).
Proof.
  intros HL Hshape Hr Hc. unfold unlap, bindM, liftR, floordiv.
  rewrite Hshape. simpl. rewrite (proj2 (Z.eqb_neq _ _) HL).
  rewrite Z.div_mul by done. unfold as_strided. simpl.
  rewrite (proj2 (Z.leb_le _ _) Hr), (proj2 (Z.leb_le _ _) Hc). done.
Qed.

Lemma unlap_copy_ok (h : heap A) v L r c rows :
  L <> 0 -> shape v = (r, c * L) -> 0 <= r + L - 1 -> 0 <= c ->
  rows_of h (NdArray (buf v) (offset v) (r + L - 1, c) (strides v))
  = Some rows ->
  unlap v L true h
  = Ok (NdArray (length h) 0 (r + L - 1, c) (c_strides (r + L - 1, c)),
        h ++ [concat rows]).
Proof.
  intros HL Hshape Hr Hc Hrows. unfold unlap, bindM, liftR, floordiv.
  rewrite Hshape. simpl. rewrite (proj2 (Z.eqb_neq _ _) HL).
  rewrite Z.div_mul by done. unfold as_strided. simpl.
  rewrite (proj2 (Z.leb_le _ _) Hr), (proj2 (Z.leb_le _ _) Hc). simpl.
  by rewrite (ndarray_copy_ok _ _ _ Hrows).
Qed.

(** C1.  For a readable signal [x] of shape (R, C) and an overlap factor
    [1 <= L <= R], [unlap (lap x L) L] (copies taken, as by default)
    succeeds with shape (R, C) and shows the rows of [x], which are left
    untouched; [flatten (lap x L) L] succeeds with the R * C elements of [x]
    in row-major order. *)
Theorem lap_unlap_roundtrip (h : heap A) (x : ndarray) (L R C : Z)
    (rows : list (list A)) :
  shape x = (R, C) -> 0 <= C -> 1 <= L <= R ->
  rows_of h x = Some rows ->
  (exists u h',
      (do v <- lap x L true; unlap v L true) h = Ok (u, h') /\
      shape u = (R, C) /\
      rows_of h' u = Some rows /\
      rows_of h' x = Some rows) /\
  (exists f h',
      (do v <- lap x L true; flatten v L true) h = Ok (f, h') /\
      flen f = R * C /\
      elems_of h' f = Some (concat rows)).
Proof.
  intros Hshape HC HL Hrows.
  destruct (rows_of_uniform _ _ _ Hrows) as [Hlen Hu];
    rewrite ?Hshape; simpl; try lia.
  rewrite Hshape in Hlen, Hu. simpl in Hlen, Hu.
  assert (Hlap := lap_copy_ok h x L rows Hrows).
  rewrite Hshape in Hlap. simpl in Hlap.
  specialize (Hlap ltac:(lia) ltac:(nia)).
  set (h1 := h ++ [concat rows]) in *.
  set (v := NdArray (length h) 0 (R - L + 1, C * L) (c_strides (R, C))) in *.
  assert (Hback : R - L + 1 + L - 1 = R) by lia.
  assert (Hrows1 : rows_of h1
            (NdArray (buf v) (offset v) (R - L + 1 + L - 1, C) (strides v))
          = Some rows).
  { rewrite Hback. subst v h1. simpl. by apply rows_of_fresh. }
  assert (Hunlap := unlap_copy_ok h1 v L (R - L + 1) C rows
                      ltac:(lia) eq_refl ltac:(lia) HC Hrows1).
  rewrite Hback in Hunlap.
  assert (Hu2 : rows_of (h1 ++ [concat rows])
            (NdArray (length h1) 0 (R, C) (c_strides (R, C))) = Some rows)
    by (by apply rows_of_fresh).
  split.
  - eexists _, _. unfold bindM at 1. rewrite Hlap, Hunlap.
    repeat split; [done|]. subst h1. by do 2 apply rows_of_extend.
  - eexists _, _. unfold bindM at 1. rewrite Hlap.
    unfold flatten, bindM. rewrite Hunlap. unfold ravel.
    rewrite c_strides_contiguous. unfold retM. simpl.
    repeat split. apply elems_of_whole.
    + apply list_lookup_middle. done.
    + rewrite (uniform_concat_length _ _ Hu). lia.
Qed.

End RoundTrip.

(** ** Views built by [lap] alias the signal *)

Section Aliasing.
Context {A : Type}.

Lemma setitem_ok (h : heap A) a i j w b :
  h !! buf a = Some b -> 0 <= addr a i j < Z.of_nat (length b) ->
  setitem a i j w h
  = Ok (tt, <[buf a := <[Z.to_nat (addr a i j) := w]> b]> h).
Proof.
  intros Hb Hin. unfold setitem, cell_set. rewrite Hb.
  by rewrite decide_True.
Qed.

Lemma get_after_setitem (h : heap A) a a' i j i' j' w b :
  h !! buf a = Some b -> 0 <= addr a i j < Z.of_nat (length b) ->
  buf a' = buf a -> addr a' i' j' = addr a i j ->
  get (<[buf a := <[Z.to_nat (addr a i j) := w]> b]> h) a' i' j' = Some w.
Proof.
  intros Hb Hin Hbuf Haddr. unfold get, peek. rewrite Hbuf, Haddr.
  rewrite list_lookup_insert_eq by (by eapply lookup_lt_Some).
  simpl. unfold cell. rewrite decide_True by lia.
  apply list_lookup_insert_eq. lia.
Qed.

Lemma lapped_index (C L j : Z) :
  0 < C -> 0 <= j < C * L ->
  0 <= j / C < L /\ 0 <= j mod C < C /\ j = j / C * C + j mod C.
Proof.
  intros HC Hj. split; [|split].
  - split; [apply Z.div_pos; lia|]. apply Z.div_lt_upper_bound; lia.
  - apply Z.mod_pos_bound. lia.
  - pose proof (Z.div_mod j C). lia.
Qed.

(** C2.  For a C-ordered signal [x] of shape (R, C) and [1 <= L <= R],
    [lap x L] without copy allocates nothing and returns a view [v] on the
    buffer of [x], of shape (R - L + 1, C * L), whose element (i, j) is the
    cell of [x]'s element (i + j div C, j mod C); when [x] lies inside its
    buffer, a write to [v[i, j]] is read back from [x] at that coordinate
    and from [v] at every coordinate with the same address. *)
Theorem lap_view_aliases (h : heap A) (x : ndarray) (L R C : Z) :
  shape x = (R, C) -> strides x = c_strides (R, C) ->
  0 <= C -> 1 <= L <= R ->
  exists v,
    lap x L false h = Ok (v, h) /\
    buf v = buf x /\
    shape v = (R - L + 1, C * L) /\
    (forall i j, 0 <= i < R - L + 1 -> 0 <= j < C * L ->
       (0 <= i + j / C < R /\ 0 <= j mod C < C) /\
       addr v i j = addr x (i + j / C) (j mod C)) /\
    (forall i j w, 0 <= i < R - L + 1 -> 0 <= j < C * L ->
       in_bounds h x = true ->
       exists h',
         setitem v i j w h = Ok (tt, h') /\
         get h' x (i + j / C) (j mod C) = Some w /\
         forall i' j', addr v i' j' = addr v i j -> get h' v i' j' = Some w).
Proof.
  intros Hshape Hstr HC HL.
  exists (NdArray (buf x) (offset x) (R - L + 1, C * L) (strides x)).
  assert (Haddr : forall i j, 0 <= i < R - L + 1 -> 0 <= j < C * L ->
    (0 <= i + j / C < R /\ 0 <= j mod C < C) /\
    addr (NdArray (buf x) (offset x) (R - L + 1, C * L) (strides x)) i j
    = addr x (i + j / C) (j mod C)).
  { intros i j Hi Hj. assert (0 < C) as HC' by nia.
    destruct (lapped_index C L j HC' Hj) as (Hq & Hm & Hdm).
    split; [lia|]. unfold addr. simpl. rewrite Hstr. unfold c_strides. simpl.
    rewrite (proj2 (Z.eqb_neq C 0)) by lia. lia. }
  split; [|split; [done|split; [done|split; [exact Haddr|]]]].
  - unfold lap, bindM, retM, liftR, as_strided. rewrite Hshape. simpl.
    rewrite (proj2 (Z.leb_le 0 (R - L + 1))) by lia.
    rewrite (proj2 (Z.leb_le 0 (C * L))) by nia. done.
  - intros i j w Hi Hj Hin.
    destruct (Haddr i j Hi Hj) as [[Hrow Hcol] Hsame].
    assert (0 < C) as HC' by nia.
    unfold in_bounds in Hin. destruct (h !! buf x) as [b|] eqn:Hb; [|done].
    apply andb_true_iff in Hin as [Hlo Hhi].
    apply Z.leb_le in Hlo, Hhi.
    assert (Hext : extent x = R * C).
    { unfold extent. rewrite Hshape, Hstr. unfold c_strides. simpl.
      rewrite (proj2 (Z.eqb_neq C 0)) by lia.
      rewrite (proj2 (Z.eqb_neq (R * C) 0)) by nia. lia. }
    set (v := NdArray (buf x) (offset x) (R - L + 1, C * L) (strides x)) in *.
    assert (Hbound : 0 <= addr v i j < Z.of_nat (length b)).
    { rewrite Hsame. unfold addr. rewrite Hstr. unfold c_strides. simpl.
      rewrite (proj2 (Z.eqb_neq C 0)) by lia. nia. }
    eexists. split; [|split].
    + by apply (setitem_ok h v i j w b).
    + by apply (get_after_setitem h v x).
    + intros i' j' Heq. by apply (get_after_setitem h v v).
Qed.

End Aliasing.

(** ** [transform] on arrays whose rows do not overlap *)

Section Transform.
Context {A : Type}.
Variable dot : list A -> list A -> A.
Implicit Types (h : heap A) (T : matrix A) (p q r y : list A).

Lemma matvec_length T r :
  length (matvec dot T r) = Z.to_nat (mshape T).1.
Proof. unfold matvec, arange. by rewrite length_map, length_seqZ. Qed.

Lemma broadcast_row_same (c : Z) y :
  Z.of_nat (length y) = c -> broadcast_row c y = Ok y.
Proof. intros H. unfold broadcast_row. by rewrite (proj2 (Z.eqb_eq _ _) H). Qed.

Lemma write_row_segment h a i p r q y :
  h !! buf a = Some (p ++ r ++ q) ->
  (strides a).2 = 1 ->
  offset a + i * (strides a).1 = Z.of_nat (length p) ->
  (shape a).2 = Z.of_nat (length r) ->
  length y = length r ->
  write_row a i y h = Ok (tt, <[buf a := p ++ y ++ q]> h).
Proof.
  intros Hb Hs Ho Hc Hy. unfold write_row. rewrite Hb.
  change (map (addr a i) (arange (shape a).2))
    with (addr a i <$> arange (shape a).2).
  rewrite row_addresses by done. rewrite Ho, Hc.
  by rewrite write_segment.
Qed.

(** One loop iteration on a row that occupies the segment [r]. *)
Lemma transform_row_segment h a T i p r q :
  h !! buf a = Some (p ++ r ++ q) ->
  (strides a).2 = 1 ->
  offset a + i * (strides a).1 = Z.of_nat (length p) ->
  (shape a).2 = Z.of_nat (length r) ->
  mshape T = ((shape a).2, (shape a).2) ->
  transform_row dot a T i h
  = Ok (tt, <[buf a := p ++ matvec dot T r ++ q]> h).
Proof.
  intros Hb Hs Ho Hc HT. unfold transform_row.
  rewrite HT. simpl. rewrite Z.eqb_refl. simpl.
  unfold bindM, read_row. rewrite (row_of_segment h a i p r q) by done.
  unfold set_row, bindM, liftR.
  assert (Hlen : length (matvec dot T r) = length r).
  { rewrite matvec_length, HT. simpl. lia. }
  rewrite broadcast_row_same by lia.
  by apply (write_row_segment h a i p r q).
Qed.

Lemma transform_rows_cons a T i idx h :
  transform_rows dot a T (i :: idx) h
  = match transform_row dot a T i h with
    | Ok (_, h') => transform_rows dot a T idx h'
    | Raise e => Raise e
    end.
Proof. simpl. unfold bindM. by destruct (transform_row dot a T i h) as [[[] ?]|]. Qed.

(** The loop over a C-ordered array with non-empty rows. *)
Lemma transform_rows_plain a T (c : Z) todo : forall p q n h,
  h !! buf a = Some (p ++ concat todo ++ q) ->
  strides a = (c, 1) -> (shape a).2 = c -> mshape T = (c, c) ->
  offset a + n * c = Z.of_nat (length p) ->
  uniform c todo ->
  transform_rows dot a T (seqZ n (Z.of_nat (length todo))) h
  = Ok (tt, <[buf a := p ++ concat (map (matvec dot T) todo) ++ q]> h).
Proof.
  induction todo as [|r todo IH]; intros p q n h Hb Hs Hc HT Ho Hu.
  { simpl. unfold retM. by rewrite list_insert_id. }
  apply Forall_cons in Hu as [Hr Hu].
  rewrite seqZ_cons by (simpl; lia). rewrite transform_rows_cons.
  simpl in Hb. rewrite <- app_assoc in Hb.
  rewrite (transform_row_segment h a T n p r (concat todo ++ q));
    rewrite ?Hs, ?Hc; simpl; try done; try lia.
  replace (Z.pred (Z.of_nat (S (length todo))))
    with (Z.of_nat (length todo)) by lia.
  assert (Hy : Z.of_nat (length (matvec dot T r)) = c).
  { rewrite matvec_length, HT. simpl. lia. }
  rewrite (IH (p ++ matvec dot T r) q (Z.succ n)); try done.
  - rewrite list_insert_insert_eq. by rewrite <- !app_assoc.
  - rewrite list_lookup_insert_eq by (by eapply lookup_lt_Some).
    by rewrite <- !app_assoc.
  - rewrite length_app. lia.
Qed.

(** With empty rows every iteration is a no-op. *)
Lemma transform_rows_empty a T b idx : forall h,
  h !! buf a = Some b -> (shape a).2 = 0 -> mshape T = (0, 0) ->
  transform_rows dot a T idx h = Ok (tt, h).
Proof.
  induction idx as [|i idx IH]; intros h Hb Hc HT; [done|].
  rewrite transform_rows_cons.
  assert (Hstep : transform_row dot a T i h = Ok (tt, h)).
  { unfold transform_row. rewrite HT, Hc. simpl.
    unfold bindM, read_row. rewrite row_of_empty by done.
    unfold set_row, bindM, liftR, matvec. rewrite HT, Hc. simpl.
    unfold write_row. rewrite Hb, Hc. simpl. by rewrite list_insert_id. }
  rewrite Hstep. by apply IH.
Qed.

(** C6, as amended.  For a square [T] of shape (C, C) and a C-ordered
    signal [x] of shape (R, C), [transform x T] succeeds, returns the
    descriptor [x] itself and leaves in row [i] the product of [T] with the
    original row [i]. *)
Theorem transform_square (h : heap A) (x : ndarray) (T : matrix A) (C : Z)
    (pre post : list A) (rows : list (list A)) :
  h !! buf x = Some (pre ++ concat rows ++ post) ->
  offset x = Z.of_nat (length pre) ->
  shape x = (Z.of_nat (length rows), C) ->
  uniform C rows ->
  strides x = c_strides (shape x) ->
  mshape T = (C, C) ->
  exists h',
    transform dot x T h = Ok (x, h') /\
    h' = <[buf x := pre ++ concat (map (matvec dot T) rows) ++ post]> h /\
    rows_of h' x = Some (map (matvec dot T) rows).
Proof.
  intros Hb Ho Hshape Hu Hs HT.
  assert (Hu' : uniform C (map (matvec dot T) rows)).
  { apply Forall_map, Forall_forall. intros r Hr. simpl.
    rewrite matvec_length, HT. simpl.
    pose proof (proj1 (Forall_forall _ _) Hu r Hr) as Hl. simpl in Hl. lia. }
  assert (Hloop : transform_rows dot x T (arange (shape x).1) h
    = Ok (tt, <[buf x := pre ++ concat (map (matvec dot T) rows) ++ post]> h)).
  { rewrite Hshape. simpl. unfold arange. destruct (decide (C = 0)) as [->|HC].
    - rewrite (transform_rows_empty x T _ _ h Hb); rewrite ?Hshape; try done.
      rewrite (uniform_nil _ Hu'). rewrite (uniform_nil _ Hu) in Hb.
      by rewrite list_insert_id.
    - apply (transform_rows_plain x T C); try done.
      + rewrite Hs, Hshape. unfold c_strides. simpl.
        by rewrite (proj2 (Z.eqb_neq _ _) HC).
      + by rewrite Hshape.
      + lia. }
  eexists. split; [|split; [reflexivity|]].
  - unfold transform, bindM. by rewrite Hloop.
  - eapply rows_of_framed; try done.
    + rewrite list_lookup_insert_eq by (by eapply lookup_lt_Some). done.
    + rewrite Hshape, length_map. done.
    + by rewrite Hshape.
Qed.

End Transform.

(** ** [transform] on a view of overlap two *)

Section Lapped.
Context {A : Type}.
Variable dot : list A -> list A -> A.
Implicit Types (h : heap A) (T : matrix A) (p q r y f carry : list A)
  (fs : list (list A)).

Lemma carry_after_snoc T c fs : forall carry f,
  carry_after dot T c carry (fs ++ [f])
  = drop c (matvec dot T (carry_after dot T c carry fs ++ f)).
Proof. induction fs as [|g fs IH]; intros carry f; simpl; [done|apply IH]. Qed.

Lemma seq_recurrence_split T (c : nat) fs : forall carry,
  mshape T = (2 * Z.of_nat c, 2 * Z.of_nat c) ->
  exists heads,
    concat (seq_recurrence dot T c carry fs)
    = heads ++ carry_after dot T c carry fs /\
    length heads = (length fs * c)%nat.
Proof.
  intros carry HT. revert carry.
  induction fs as [|f fs IH]; intros carry; simpl.
  - exists []. by rewrite app_nil_r.
  - destruct (IH (drop c (matvec dot T (carry ++ f)))) as (heads & Heq & Hlen).
    exists (take c (matvec dot T (carry ++ f)) ++ heads). split.
    + by rewrite Heq, app_assoc.
    + rewrite length_app, length_take, matvec_length, HT. simpl. lia.
Qed.

Lemma carry_after_length T (c : nat) fs : forall carry,
  mshape T = (2 * Z.of_nat c, 2 * Z.of_nat c) ->
  length carry = c -> length (carry_after dot T c carry fs) = c.
Proof.
  intros carry HT. revert carry.
  induction fs as [|f fs IH]; intros carry Hc; simpl; [done|].
  apply IH. rewrite length_drop, matvec_length, HT. simpl. lia.
Qed.

(** The loop over a view of overlap two: each iteration transforms the
    carried half followed by the next frame. *)
Lemma transform_rows_lapped v T (c : nat) fs : forall carry p q n h,
  h !! buf v = Some (p ++ carry ++ concat fs ++ q) ->
  strides v = (Z.of_nat c, 1) -> (shape v).2 = 2 * Z.of_nat c ->
  mshape T = (2 * Z.of_nat c, 2 * Z.of_nat c) ->
  offset v + n * Z.of_nat c = Z.of_nat (length p) ->
  length carry = c -> uniform (Z.of_nat c) fs ->
  transform_rows dot v T (seqZ n (Z.of_nat (length fs))) h
  = Ok (tt, <[buf v := p ++ concat (seq_recurrence dot T c carry fs) ++ q]> h).
Proof.
  induction fs as [|f fs IH]; intros carry p q n h Hb Hs Hc HT Ho Hcarry Hu.
  { simpl. unfold retM. rewrite app_nil_r. by rewrite list_insert_id. }
  apply Forall_cons in Hu as [Hf Hu].
  rewrite seqZ_cons by (simpl; lia). rewrite transform_rows_cons.
  simpl in Hb. rewrite <- app_assoc in Hb. rewrite (app_assoc carry f) in Hb.
  rewrite (transform_row_segment dot h v T n p (carry ++ f) (concat fs ++ q));
    rewrite ?Hs, ?Hc, ?length_app; simpl; try done; try lia.
  replace (Z.pred (Z.of_nat (S (length fs))))
    with (Z.of_nat (length fs)) by lia.
  set (y := matvec dot T (carry ++ f)).
  assert (Hy : length y = (2 * c)%nat).
  { subst y. rewrite matvec_length, HT. simpl. lia. }
  rewrite (IH (drop c y) (p ++ take c y) q (Z.succ n)); try done.
  - rewrite list_insert_insert_eq. by rewrite <- !app_assoc.
  - rewrite list_lookup_insert_eq by (by eapply lookup_lt_Some).
    rewrite <- (take_drop c y) at 1. by rewrite <- !app_assoc.
  - rewrite length_app, length_take. lia.
  - rewrite length_drop. lia.
Qed.


Section LappedView.
Variables (h : heap A) (x : ndarray) (T : matrix A) (C : Z).
Variables (pre post f0 : list A) (fs : list (list A)).
Hypothesis Hbuf : h !! buf x = Some (pre ++ concat (f0 :: fs) ++ post).
Hypothesis Hoff : offset x = Z.of_nat (length pre).
Hypothesis Hshape : shape x = (Z.of_nat (length (f0 :: fs)), C).
Hypothesis Hframes : uniform C (f0 :: fs).
Hypothesis Hpos : 0 < C.
Hypothesis Hstrides : strides x = c_strides (shape x).
Hypothesis HT : mshape T = (C * 2, C * 2).

Let v : ndarray :=
  NdArray (buf x) (offset x) (Z.of_nat (length fs), C * 2) (C, 1).

Local Lemma lap_two : lap x 2 false h = Ok (v, h).
Proof.
  unfold lap, bindM, retM, liftR, as_strided. rewrite Hshape, Hstrides.
  cbn [fst snd length].
  replace (Z.of_nat (S (length fs)) - 2 + 1) with (Z.of_nat (length fs)) by lia.
  rewrite (proj2 (Z.leb_le 0 (Z.of_nat (length fs)))) by lia.
  rewrite (proj2 (Z.leb_le 0 (C * 2))) by lia. simpl.
  unfold v, c_strides. rewrite Hshape. simpl.
  by rewrite (proj2 (Z.eqb_neq C 0)) by lia.
Qed.

(** The heap after the first [k] iterations. *)
Local Lemma lapped_prefix (k : nat) :
  (k <= length fs)%nat ->
  transform_rows dot v T (arange (Z.of_nat k)) h
  = Ok (tt, <[buf x := pre ++ concat (seq_recurrence dot T (Z.to_nat C) f0
                                        (take k fs))
                           ++ concat (drop k fs) ++ post]> h).
Proof.
  intros Hk. apply Forall_cons in Hframes as [Hf0 Hfs]. unfold arange.
  rewrite <- (length_take_le fs k) at 1 by done.
  rewrite <- (take_drop k fs) in Hbuf, Hfs.
  apply uniform_app in Hfs as [Hfs _].
  simpl in Hbuf. rewrite concat_app in Hbuf. rewrite <- !app_assoc in Hbuf.
  rewrite (transform_rows_lapped v T (Z.to_nat C) (take k fs) f0 pre
             (concat (drop k fs) ++ post) 0 h);
    rewrite ?Z2Nat.id by lia; simpl; try done; try lia.
  rewrite HT. f_equal; lia.
Qed.

Local Lemma lapped_read (k : nat) f :
  fs !! k = Some f ->
  row_of (<[buf x := pre ++ concat (seq_recurrence dot T (Z.to_nat C) f0
                                      (take k fs))
                         ++ concat (drop k fs) ++ post]> h) v (Z.of_nat k)
  = Some (carry_after dot T (Z.to_nat C) f0 (take k fs) ++ f).
Proof.
  intros Hk. apply Forall_cons in Hframes as [Hf0 Hfs].
  assert (HT' : mshape T = (2 * Z.of_nat (Z.to_nat C), 2 * Z.of_nat (Z.to_nat C))).
  { rewrite HT, Z2Nat.id by lia. f_equal; lia. }
  destruct (seq_recurrence_split T (Z.to_nat C) (take k fs) f0 HT')
    as (heads & Hsplit & Hheads).
  pose proof (carry_after_length T (Z.to_nat C) (take k fs) f0 HT'
                ltac:(lia)) as Hcarry.
  pose proof (Forall_lookup_1 _ _ _ _ Hfs Hk) as Hf. simpl in Hf.
  assert (Hlt : (k < length fs)%nat) by (by eapply lookup_lt_Some).
  rewrite length_take_le in Hheads by lia.
  rewrite Hsplit, (drop_S _ _ _ Hk). simpl.
  eapply (row_of_segment _ v _ (pre ++ heads) _
            (concat (drop (S k) fs) ++ post)); simpl.
  - rewrite list_lookup_insert_eq by (by eapply lookup_lt_Some).
    by rewrite <- !app_assoc.
  - done.
  - rewrite Hoff, length_app. nia.
  - rewrite length_app. lia.
Qed.

(** C3.  On the overlap-two view [v] of a C-ordered signal with frames
    [f0 :: fs], [transform] leaves in the buffer the result of the
    sequential left-to-right recurrence; and what iteration [k + 1] reads
    is the second half of what iteration [k] wrote, followed by the next
    untouched frame. *)
Theorem transform_lapped_sequential :
  lap x 2 false h = Ok (v, h) /\
  transform dot v T h
  = Ok (v, <[buf x := pre ++ concat (seq_recurrence dot T (Z.to_nat C) f0 fs)
                          ++ post]> h) /\
  forall (k : nat) f f',
    fs !! k = Some f -> fs !! S k = Some f' ->
    exists hk hk' r,
      transform_rows dot v T (arange (Z.of_nat k)) h = Ok (tt, hk) /\
      row_of hk v (Z.of_nat k) = Some r /\
      transform_rows dot v T (arange (Z.of_nat k + 1)) h = Ok (tt, hk') /\
      row_of hk' v (Z.of_nat k + 1)
      = Some (drop (Z.to_nat C) (matvec dot T r) ++ f').
Proof.
  split; [exact lap_two|split].
  - unfold transform, bindM. simpl.
    rewrite (lapped_prefix (length fs)) by done.
    by rewrite take_ge, drop_ge by done.
  - intros k f f' Hk Hk'.
    assert (Hlt : (S k < length fs)%nat) by (by eapply lookup_lt_Some).
    eexists _, _, _. split; [apply lapped_prefix; lia|].
    split; [by apply lapped_read|].
    replace (Z.of_nat k + 1) with (Z.of_nat (S k)) by lia.
    split; [apply lapped_prefix; lia|].
    rewrite (lapped_read (S k) f' Hk').
    by rewrite (take_S_r _ _ _ Hk), carry_after_snoc.
Qed.

End LappedView.
End Lapped.

(** ** [copy] *)

Section CopyFacts.
Context {A : Type}.
Implicit Types (h : heap A) (b : list A).

Lemma cell_middle (pre b post : list A) (k : Z) :
  0 <= k < Z.of_nat (length b) ->
  cell (pre ++ b ++ post) (Z.of_nat (length pre) + k) = cell b k.
Proof.
  intros Hk. replace k with (Z.of_nat (Z.to_nat k)) by lia.
  rewrite <- Nat2Z.inj_add, !cell_nat.
  rewrite lookup_app_r by lia.
  replace (length pre + Z.to_nat k - length pre)%nat with (Z.to_nat k) by lia.
  apply lookup_app_l. lia.
Qed.

Lemma rows_of_same_buffer h1 h2 a :
  h1 !! buf a = h2 !! buf a -> rows_of h1 a = rows_of h2 a.
Proof.
  intros Heq. unfold rows_of, row_of, get, peek. by rewrite Heq.
Qed.

Lemma setitem_other_buffer h h' a a' i j w :
  setitem a i j w h = Ok (tt, h') -> buf a' <> buf a ->
  rows_of h' a' = rows_of h a'.
Proof.
  unfold setitem. intros Hset Hne.
  destruct (h !! buf a) as [b|]; [|done].
  destruct (cell_set b (addr a i j) w) as [b'|]; [|done].
  simplify_eq. apply rows_of_same_buffer.
  by apply list_lookup_insert_ne.
Qed.

Section OverlapTwo.
Variables (h : heap A) (x : ndarray) (C L : Z).
Variables (pre post f0 : list A) (fs : list (list A)).
Hypothesis Hbuf : h !! buf x = Some (pre ++ concat (f0 :: fs) ++ post).
Hypothesis Hoff : offset x = Z.of_nat (length pre).
Hypothesis Hshape : shape x = (Z.of_nat (length (f0 :: fs)), C).
Hypothesis Hframes : uniform C (f0 :: fs).
Hypothesis Hpos : 0 < C.
Hypothesis Hstrides : strides x = c_strides (shape x).

Let v : ndarray :=
  NdArray (buf x) (offset x) (Z.of_nat (length fs), C * 2) (C, 1).
Let c : ndarray :=
  NdArray (length h) 0 (Z.of_nat (length fs), C * 2) (C, 1).

(** X12.  On a view of overlap two over a C-ordered signal, [copy] (with
    any overlap argument) returns a view of the same geometry on a new
    buffer, which shows the same rows; and no write through it changes what
    a descriptor on the signal's buffer shows. *)
Lemma copy_overlap_two :
  copy v L h = Ok (c, h ++ [concat (f0 :: fs)]) /\
  rows_of (h ++ [concat (f0 :: fs)]) c = rows_of h v /\
  forall i j w h' a,
    setitem c i j w (h ++ [concat (f0 :: fs)]) = Ok (tt, h') ->
    buf a = buf x -> rows_of h' a = rows_of h a.
Proof.
  assert (Hlt : (buf x < length h)%nat) by (by eapply lookup_lt_Some).
  assert (HC : (C =? 0) = false) by (apply Z.eqb_neq; lia).
  split; [|split].
  - unfold copy, flatten, bindM.
    pose proof (unlap_copy_ok h v 2 (Z.of_nat (length fs)) C (f0 :: fs)
                  ltac:(lia) eq_refl ltac:(lia) ltac:(lia)) as Hun.
    rewrite Hun.
    + unfold ravel.
      replace (Z.of_nat (length fs) + 2 - 1, C)
        with (Z.of_nat (length (f0 :: fs)), C) by (simpl length; f_equal; lia).
      rewrite c_strides_contiguous. unfold retM, lap_like, liftR, as_strided.
      cbn [shape strides fst snd v data_buf data_offset flatarray_like fbuf foffset].
      rewrite (proj2 (Z.leb_le 0 _)) by lia.
      rewrite (proj2 (Z.leb_le 0 (C * 2))) by lia. done.
    + apply (rows_of_framed h _ pre (f0 :: fs) post); simpl; try done.
      * lia.
      * unfold c_strides. simpl. by rewrite HC.
  - apply Forall_mapM_ext, Forall_forall. intros i Hi. simpl.
    apply Forall_mapM_ext, Forall_forall. intros j Hj. unfold get.
    apply elem_of_seqZ in Hi, Hj. simpl in Hi, Hj.
    rewrite (peek_buffer _ _ _ _ Hbuf).
    rewrite (peek_buffer (h ++ [concat (f0 :: fs)]) (length h)
               (concat (f0 :: fs))) by (by apply list_lookup_middle).
    unfold addr. simpl. rewrite Hoff.
    pose proof (uniform_concat_length _ _ Hframes) as Hlen.
    simpl length in Hlen.
    replace (Z.of_nat (length pre) + i * C + j * 1)
      with (Z.of_nat (length pre) + (0 + i * C + j * 1)) by lia.
    symmetry. apply cell_middle. simpl length. nia.
  - intros i j w h' a Hset Ha.
    rewrite (setitem_other_buffer _ _ c a i j w Hset) by (simpl; lia).
    apply rows_of_same_buffer. apply lookup_app_l. lia.
Qed.

End OverlapTwo.
End CopyFacts.

(** ** [lap_like] *)

Section LapLike.
Context {A : Type}.
Implicit Types (h : heap A) (b : list A).

Lemma cell_is_Some b o : is_Some (cell b o) <-> 0 <= o < Z.of_nat (length b).
Proof.
  unfold cell. case_decide.
  - rewrite lookup_lt_is_Some. lia.
  - split; [by intros [? ?]|lia].
Qed.

(** A view of non-negative strides is readable exactly when its last
    element is inside the buffer. *)
Lemma rows_of_is_Some h a b :
  h !! buf a = Some b ->
  0 <= offset a <= Z.of_nat (length b) ->
  0 <= (shape a).1 -> 0 <= (shape a).2 ->
  0 <= (strides a).1 -> 0 <= (strides a).2 ->
  is_Some (rows_of h a) <-> offset a + extent a <= Z.of_nat (length b).
Proof.
  intros Hb Ho Hr Hc Hs0 Hs1. unfold rows_of, row_of, extent.
  rewrite mapM_is_Some, Forall_forall.
  destruct ((shape a).1 * (shape a).2 =? 0) eqn:Hz.
  - apply Z.eqb_eq in Hz. split; [lia|]. intros _ i Hi. simpl.
    apply mapM_is_Some, Forall_forall. intros j Hj.
    apply elem_of_seqZ in Hi, Hj. nia.
  - apply Z.eqb_neq in Hz. split.
    + intros Hall.
      assert (Hi : (shape a).1 - 1 ∈ arange (shape a).1)
        by (apply elem_of_seqZ; nia).
      specialize (Hall _ Hi). simpl in Hall.
      rewrite mapM_is_Some, Forall_forall in Hall.
      assert (Hj : (shape a).2 - 1 ∈ arange (shape a).2)
        by (apply elem_of_seqZ; nia).
      specialize (Hall _ Hj). simpl in Hall. unfold get in Hall.
      rewrite (peek_buffer _ _ _ _ Hb), cell_is_Some in Hall.
      unfold addr in Hall. lia.
    + intros Hext i Hi. simpl. apply mapM_is_Some, Forall_forall.
      intros j Hj. simpl. unfold get.
      rewrite (peek_buffer _ _ _ _ Hb), cell_is_Some.
      apply elem_of_seqZ in Hi, Hj. unfold addr. nia.
Qed.

(** C8, as amended.  [lap_like x y] never fails on an existing array [y]:
    it returns a view with the shape and strides of [y] on the data pointer of
    [x], whatever the size of [x]'s buffer.  That view can be read exactly
    when the buffer of [x] holds, from its data pointer on, at least as
    many cells as [y]'s geometry reaches. *)
Theorem lap_like_unchecked {T} `{ArrayLike T} (x : T) (y : ndarray)
    (h : heap A) (b : list A) :
  h !! data_buf x = Some b ->
  0 <= data_offset x <= Z.of_nat (length b) ->
  0 <= (shape y).1 -> 0 <= (shape y).2 ->
  0 <= (strides y).1 -> 0 <= (strides y).2 ->
  exists v,
    lap_like x y h = Ok (v, h) /\
    shape v = shape y /\ strides v = strides y /\
    buf v = data_buf x /\ offset v = data_offset x /\
    (is_Some (rows_of h v)
     <-> data_offset x + extent y <= Z.of_nat (length b)).
Proof.
  intros Hb Ho Hr Hc Hs0 Hs1.
  exists (NdArray (data_buf x) (data_offset x) (shape y) (strides y)).
  split; [|repeat split; try done].
  - unfold lap_like, liftR, as_strided.
    by rewrite (proj2 (Z.leb_le _ _) Hr), (proj2 (Z.leb_le _ _) Hc).
  - intros Hsome. by apply (rows_of_is_Some h _ b) in Hsome.
  - intros Hext. by apply (rows_of_is_Some h _ b).
Qed.

(** [copy] never looks at its second argument. *)
(** C10.  The overlap argument of [copy] has no effect: two calls that
    differ only in it have the same outcome (array, heap or exception),
    which is that of flattening with overlap two and re-lapping. *)
Theorem copy_ignores_overlap (x : ndarray) (L1 L2 : Z) (h : heap A) :
  copy x L1 h = copy x L2 h /\
  copy x L1 h = (do new <- flatten x 2 true; lap_like new x) h.
Proof. split; reflexivity. Qed.

End LapLike.

(** ** [make_twoframe] *)

Section FoldingFacts.
Context {A : Type}.
Variables zero one : A.

Lemma slice_index_inner (i len : Z) : 0 <= i <= len -> slice_index i len = i.
Proof. intros Hi. unfold slice_index. destruct (Z.ltb_spec i 0); lia. Qed.

Lemma slice_both (a b len : Z) :
  0 <= a <= b -> b <= len -> slice (Some a) (Some b) len = (a, b - a).
Proof.
  intros Ha Hb. unfold slice. rewrite !slice_index_inner by lia.
  f_equal. lia.
Qed.

Lemma slice_from (a len : Z) :
  0 <= a <= len -> slice (Some a) None len = (a, len - a).
Proof.
  intros Ha. unfold slice. rewrite slice_index_inner by lia. f_equal. lia.
Qed.

Lemma slice_upto (b len : Z) :
  0 <= b <= len -> slice None (Some b) len = (0, b).
Proof.
  intros Hb. unfold slice. rewrite slice_index_inner by lia. f_equal. lia.
Qed.

Lemma slice_trim (N : Z) :
  0 <= N -> slice (Some N) (Some (- N)) (4 * N) = (N, 2 * N).
Proof.
  intros HN. unfold slice, slice_index.
  destruct (Z.ltb_spec N 0), (Z.ltb_spec (- N) 0); try lia; f_equal; lia.
Qed.

Ltac bool_props :=
  repeat match goal with
    | H : _ && _ = true |- _ => apply andb_true_iff in H as [? H]
    | H : (_ <=? _) = true |- _ => apply Z.leb_le in H
    | H : (_ <? _) = true |- _ => apply Z.ltb_lt in H
    end.

(** What the two block assignments leave in the output. *)
Lemma twoframe_blocks (data : matrix A) (N i j : Z) :
  0 <= N ->
  (if (2 * N <=? i) && (i <? 3 * N) && (N <=? j) && (j <? 3 * N)
   then entry data (0 + (if N =? 1 then 0 else i - 2 * N))
                   (0 + (if 2 * N =? 1 then 0 else j - N))
   else if (N <=? i) && (i <? 2 * N) && (N <=? j) && (j <? 3 * N)
   then entry data (N + (if N =? 1 then 0 else i - N))
                   (2 * N + (if 2 * N =? 1 then 0 else j - N))
   else if i =? j then one else zero)
  = twoframe_entry zero one data N i j.
Proof.
  intros HN. unfold twoframe_entry.
  destruct ((N <=? i) && (i <? 2 * N) && (N <=? j) && (j <? 3 * N)) eqn:H1;
  destruct ((2 * N <=? i) && (i <? 3 * N) && (N <=? j) && (j <? 3 * N)) eqn:H2;
    try done; bool_props.
  - lia.
  - destruct (Z.eqb_spec N 1), (Z.eqb_spec (2 * N) 1); f_equal; lia.
  - destruct (Z.eqb_spec N 1), (Z.eqb_spec (2 * N) 1); f_equal; lia.
Qed.

(** C7, as amended.  For [data] of shape (2N, 4N), [make_twoframe]
    succeeds; untrimmed it returns the 4N-by-4N matrix the specification
    describes, trimmed its central 2N-by-2N block. *)
Theorem make_twoframe_folding (data : matrix A) (N : Z) (trim : bool) :
  0 <= N -> mshape data = (2 * N, 4 * N) ->
  exists out,
    make_twoframe zero one data trim = Ok out /\
    (trim = false ->
       mshape out = (4 * N, 4 * N) /\
       forall i j, 0 <= i < 4 * N -> 0 <= j < 4 * N ->
         entry out i j = twoframe_entry zero one data N i j) /\
    (trim = true ->
       mshape out = (2 * N, 2 * N) /\
       forall i j, 0 <= i < 2 * N -> 0 <= j < 2 * N ->
         entry out i j = twoframe_entry zero one data N (i + N) (j + N)).
Proof.
  intros HN Hshape. unfold make_twoframe. rewrite Hshape. cbn [fst snd].
  replace (2 * N / 2) with N by (rewrite Z.mul_comm, Z.div_mul; lia).
  rewrite !slice_both, !slice_from, !slice_upto, slice_trim by lia.
  replace (2 * N - N) with N by lia.
  replace (3 * N - N) with (2 * N) by lia.
  replace (3 * N - 2 * N) with N by lia.
  replace (4 * N - 2 * N) with (2 * N) by lia.
  unfold setitem2 at 2, getitem2, fits. cbn [mshape fst snd entry bindR].
  rewrite !Z.eqb_refl. cbn [orb andb bindR].
  unfold setitem2, fits. cbn [mshape fst snd entry bindR eye].
  rewrite !Z.eqb_refl. cbn [orb andb bindR].
  replace (N + N) with (2 * N) by lia.
  replace (N + 2 * N) with (3 * N) by lia.
  replace (2 * N + N) with (3 * N) by lia.
  eexists. split; [reflexivity|]. split; intros ->.
  - split; [done|]. intros i j Hi Hj. cbn [entry].
    by apply twoframe_blocks.
  - split; [done|]. intros i j Hi Hj. cbn [entry].
    replace (N + i) with (i + N) by lia. replace (N + j) with (j + N) by lia.
    by apply twoframe_blocks.
Qed.

End FoldingFacts.

(** ** Kernels *)

Section Kernels.

Lemma arange_float_length (n : Z) :
  Z.of_nat (length (arange_float n)) = Z.max n 0.
Proof. unfold arange_float, arange. rewrite length_map, length_seqZ. lia. Qed.

Lemma arange_float_nth (n j : Z) :
  0 <= j < n -> nth (Z.to_nat j) (arange_float n) 0%R = IZR j.
Proof.
  intros Hj. unfold arange_float, arange.
  rewrite nth_lookup.
  change (map IZR (seqZ 0 n)) with (IZR <$> seqZ 0 n).
  rewrite list_lookup_fmap, lookup_seqZ_lt by lia.
  simpl. f_equal. lia.
Qed.

Lemma mdct_nonzero (N : Z) :
  N <> 0 ->
  mdct N
  = Ok (Matrix (Z.max N 0, Z.max (N * 2) 0) (fun i j =>
      (cos (PI / IZR N
            * (nth (Z.to_nat j) (arange_float (N * 2)) 0 + IZR (- N / 2) + 1 / 2)
            * (nth (Z.to_nat i) (arange_float N) 0 + 1 / 2))
       / sqrt (IZR N / 2))%R)).
Proof.
  intros HN. unfold mdct, meshgrid. cbn [mshape entry].
  rewrite (proj2 (Z.eqb_neq _ _) HN), !arange_float_length. done.
Qed.

Lemma dct4_nonzero (N : Z) :
  N <> 0 ->
  dct4 N None
  = Ok (Matrix (Z.max N 0, Z.max N 0) (fun i j =>
      (cos (PI / IZR N
            * (nth (Z.to_nat j) (arange_float N) 0 + 1 / 2)
            * (nth (Z.to_nat i) (arange_float N) 0 + 1 / 2))
       / sqrt (IZR N / 2))%R)).
Proof.
  intros HN. unfold dct4, meshgrid. cbn [mshape entry].
  rewrite (proj2 (Z.eqb_neq _ _) HN), !arange_float_length. done.
Qed.

Lemma mdct_entry_at (N k n : Z) :
  0 < N -> 0 <= k < N -> 0 <= n < 2 * N ->
  exists m, mdct N = Ok m /\ mshape m = (N, 2 * N) /\
            entry m k n = mdct_entry N (- N / 2) k n.
Proof.
  intros HN Hk Hn. eexists. split; [apply mdct_nonzero; lia|].
  cbn [mshape entry]. split; [f_equal; lia|].
  rewrite !arange_float_nth by lia. done.
Qed.

(** C5, as amended.  For [N > 0], [mdct N] has shape (N, 2N) and its entry
    (k, n) is the kernel formula with shift [(-N) // 2], which is
    [-(N // 2) - N mod 2]: for odd [N] one less than [-(N // 2)]. *)
Theorem mdct_kernel (N : Z) :
  0 < N ->
  exists m,
    mdct N = Ok m /\
    mshape m = (N, 2 * N) /\
    (forall k n, 0 <= k < N -> 0 <= n < 2 * N ->
       entry m k n = mdct_entry N (- N / 2) k n) /\
    - N / 2 = - (N / 2) - N mod 2.
Proof.
  intros HN. eexists. split; [apply mdct_nonzero; lia|].
  cbn [mshape entry]. split; [f_equal; lia|]. split.
  - intros k n Hk Hn. rewrite !arange_float_nth by lia. done.
  - Z.to_euclidean_division_equations. lia.
Qed.

(** At [N = 1] the entry (0, 1) is not the one a shift of [-(N // 2)] gives. *)
Lemma mdct_shift_counterexample :
  exists m, mdct 1 = Ok m /\ entry m 0 1 <> mdct_entry 1 (- (1 / 2)) 0 1.
Proof.
  destruct (mdct_entry_at 1 0 1) as (m & Hm & _ & He); try lia.
  exists m. split; [done|]. rewrite He. unfold mdct_entry.
  change (- (1) / 2) with (-1). change (- (1 / 2)) with 0.
  replace (PI / 1 * (1 + -1 + 1 / 2) * (0 + 1 / 2))%R with (PI / 4)%R by lra.
  replace (PI / 1 * (1 + 0 + 1 / 2) * (0 + 1 / 2))%R
    with (3 * (PI / 4))%R by lra.
  rewrite cos_PI4, cos_3PI4.
  assert (0 < sqrt 2)%R as H2 by (apply sqrt_lt_R0; lra).
  assert (0 < sqrt (1 / 2))%R as Hh by (apply sqrt_lt_R0; lra).
  assert (0 < 1 / sqrt 2 / sqrt (1 / 2))%R as Hpos.
  { apply Rdiv_lt_0_compat; [apply Rdiv_lt_0_compat; lra|done]. }
  intros Heq.
  replace (-1 / sqrt 2 / sqrt (1 / 2))%R
    with (- (1 / sqrt 2 / sqrt (1 / 2)))%R in Heq by (field; lra).
  lra.
Qed.

(** C9, as amended.  [mdct N] and [dct4 N] raise exactly when [N = 0], and
    then [ZeroDivisionError]; for every other [N], negative ones included,
    they return a matrix, which is empty when [N < 0]. *)
Theorem kernels_raise_iff_zero (N : Z) :
  match mdct N with
  | Raise e => N = 0 /\ e = ZeroDivisionError
  | Ok m => N <> 0 /\ mshape m = (Z.max N 0, Z.max (2 * N) 0)
  end /\
  match dct4 N None with
  | Raise e => N = 0 /\ e = ZeroDivisionError
  | Ok m => N <> 0 /\ mshape m = (Z.max N 0, Z.max N 0)
  end.
Proof.
  destruct (decide (N = 0)) as [->|HN]; [by split|].
  rewrite mdct_nonzero, dct4_nonzero by done. cbn [mshape].
  repeat split; try done. f_equal. lia.
Qed.

(** A negative size is accepted. *)
Lemma kernels_accept_negative :
  is_ok (mdct (-1)) = true /\ is_ok (dct4 (-1) None) = true.
Proof. split; reflexivity. Qed.

End Kernels.

(** ** Concrete runs *)

(** C4.  [copy] on a view of overlap three: the result has the shape of its
    argument but not its content, because the flattening is done with
    overlap two. *)
Theorem copy_overlap_three_differs :
  lap ex_signal 3 false ex_heap = Ok (ex_lapped3, ex_heap) /\
  rows_of ex_heap ex_lapped3 = Some [[10; 11; 12; 13; 14; 15]] /\
  exists c h',
    copy ex_lapped3 3 ex_heap = Ok (c, h') /\
    shape c = shape ex_lapped3 /\
    rows_of h' c = Some [[10; 11; 12; 12; 13; 14]].
Proof.
  split; [reflexivity|]. split; [reflexivity|].
  eexists _, _. split; [reflexivity|]. split; reflexivity.
Qed.

(** A 3-by-2 matrix makes [transform] raise on a signal with rows of two; a
    1-by-2 matrix is broadcast, and the shape stays (3, 2). *)
Lemma transform_nonsquare_counterexample :
  transform zdot ex_signal ex_tall ex_heap = Raise ValueError /\
  exists x' h',
    transform zdot ex_signal ex_flat ex_heap = Ok (x', h') /\
    shape x' <> (3, 1) /\
    rows_of h' x' = Some [[32; 32]; [38; 38]; [44; 44]].
Proof.
  split; [reflexivity|]. eexists _, _. split; [reflexivity|].
  split; [discriminate|reflexivity].
Qed.

(** A 2-by-2 input has M = 2 >= 2N = 2 and is refused. *)
Lemma make_twoframe_counterexample :
  mshape ex_data22 = (2 * 1, 2) /\ 2 * 1 <= 2 /\
  make_twoframe 0 1 ex_data22 false = Raise ValueError.
Proof. split; [reflexivity|]. split; [lia|reflexivity]. Qed.

(** A two-element array re-lapped like a view that reaches six cells: no
    exception, and a view that cannot be read. *)
Lemma lap_like_counterexample :
  lap_like ex_short ex_lapped2 ex_heap2
  = Ok (NdArray 1%nat 0 (2, 4) (2, 1), ex_heap2) /\
  rows_of ex_heap2 (NdArray 1%nat 0 (2, 4) (2, 1)) = None.
Proof. split; reflexivity. Qed.

(** ** Instances *)

Lemma lap_unlap_roundtrip_witness :
  (exists u h',
      (do v <- lap ex_signal 2 true; unlap v 2 true) ex_heap = Ok (u, h') /\
      shape u = (3, 2) /\
      rows_of h' u = Some ex_frames /\
      rows_of h' ex_signal = Some ex_frames) /\
  (exists f h',
      (do v <- lap ex_signal 2 true; flatten v 2 true) ex_heap = Ok (f, h') /\
      flen f = 3 * 2 /\
      elems_of h' f = Some (concat ex_frames)).
Proof.
  apply (lap_unlap_roundtrip ex_heap ex_signal 2 3 2 ex_frames);
    [reflexivity|lia|lia|reflexivity].
Defined.

Lemma lap_view_aliases_witness :
  exists v,
    lap ex_signal 2 false ex_heap = Ok (v, ex_heap) /\
    buf v = buf ex_signal /\
    shape v = (3 - 2 + 1, 2 * 2) /\
    (forall i j, 0 <= i < 3 - 2 + 1 -> 0 <= j < 2 * 2 ->
       (0 <= i + j / 2 < 3 /\ 0 <= j mod 2 < 2) /\
       addr v i j = addr ex_signal (i + j / 2) (j mod 2)) /\
    (forall i j w, 0 <= i < 3 - 2 + 1 -> 0 <= j < 2 * 2 ->
       in_bounds ex_heap ex_signal = true ->
       exists h',
         setitem v i j w ex_heap = Ok (tt, h') /\
         get h' ex_signal (i + j / 2) (j mod 2) = Some w /\
         forall i' j', addr v i' j' = addr v i j -> get h' v i' j' = Some w).
Proof.
  apply (lap_view_aliases ex_heap ex_signal 2 3 2);
    [reflexivity|reflexivity|lia|lia].
Defined.

Lemma transform_lapped_sequential_witness :
  transform zdot ex_lapped2 (ex_band 4) ex_heap
  = Ok (ex_lapped2, [[31; 34; 100; 66; 43; 30]]).
Proof.
  refine (proj1 (proj2 (transform_lapped_sequential zdot ex_heap ex_signal
            (ex_band 4) 2 [] [] [10; 11] [[12; 13]; [14; 15]]
            _ _ _ _ _ _ _)));
    try reflexivity.
  repeat constructor.
Defined.

Lemma transform_square_witness :
  exists h',
    transform zdot ex_signal (ex_band 2) ex_heap = Ok (ex_signal, h') /\
    h' = <[buf ex_signal :=
             [] ++ concat (map (matvec zdot (ex_band 2)) ex_frames) ++ []]>
           ex_heap /\
    rows_of h' ex_signal = Some (map (matvec zdot (ex_band 2)) ex_frames).
Proof.
  apply (transform_square zdot ex_heap ex_signal (ex_band 2) 2 [] [] ex_frames);
    try reflexivity.
  repeat constructor.
Defined.

Lemma make_twoframe_folding_witness :
  exists out,
    make_twoframe 0 1 ex_data24 false = Ok out /\
    (false = false ->
       mshape out = (4 * 1, 4 * 1) /\
       forall i j, 0 <= i < 4 * 1 -> 0 <= j < 4 * 1 ->
         entry out i j = twoframe_entry 0 1 ex_data24 1 i j) /\
    (false = true ->
       mshape out = (2 * 1, 2 * 1) /\
       forall i j, 0 <= i < 2 * 1 -> 0 <= j < 2 * 1 ->
         entry out i j = twoframe_entry 0 1 ex_data24 1 (i + 1) (j + 1)).
Proof.
  apply (make_twoframe_folding 0 1 ex_data24 1 false); [lia|reflexivity].
Defined.

Lemma lap_like_unchecked_witness :
  exists v,
    lap_like ex_short ex_lapped2 ex_heap2 = Ok (v, ex_heap2) /\
    shape v = shape ex_lapped2 /\ strides v = strides ex_lapped2 /\
    buf v = data_buf ex_short /\ offset v = data_offset ex_short /\
    (is_Some (rows_of ex_heap2 v)
     <-> data_offset ex_short + extent ex_lapped2 <= Z.of_nat (length [1; 2])).
Proof.
  apply (lap_like_unchecked ex_short ex_lapped2 ex_heap2 [1; 2]);
    [reflexivity|simpl; lia|simpl; lia..].
Defined.

Lemma mdct_kernel_witness :
  exists m,
    mdct 3 = Ok m /\
    mshape m = (3, 2 * 3) /\
    (forall k n, 0 <= k < 3 -> 0 <= n < 2 * 3 ->
       entry m k n = mdct_entry 3 (- (3) / 2) k n) /\
    - (3) / 2 = - (3 / 2) - 3 mod 2.
Proof. apply (mdct_kernel 3). lia. Defined.

(** * Further properties of the code *)

Section KernelSymmetries.

Lemma dct4_columns (N M : Z) :
  N <> 0 ->
  dct4 N (Some M)
  = Ok (Matrix (Z.max N 0, Z.max M 0) (fun i j =>
      (cos (PI / IZR N
            * (nth (Z.to_nat j) (arange_float M) 0 + 1 / 2)
            * (nth (Z.to_nat i) (arange_float N) 0 + 1 / 2))
       / sqrt (IZR N / 2))%R)).
Proof.
  intros HN. unfold dct4, meshgrid. cbn [mshape entry].
  rewrite (proj2 (Z.eqb_neq _ _) HN), !arange_float_length. done.
Qed.

(** X1.  For [N > 0] and a column count [M >= 0] (by default [N]),
    [dct4 N M] has shape (N, M) and entry (k, n)
    cos(pi/N (n + 1/2)(k + 1/2)) / sqrt(N/2). *)
Theorem dct4_kernel (N : Z) (M : option Z) :
  0 < N -> 0 <= default N M ->
  exists m,
    dct4 N M = Ok m /\
    mshape m = (N, default N M) /\
    forall k n, 0 <= k < N -> 0 <= n < default N M ->
      entry m k n
      = (cos (PI / IZR N * (IZR n + 1 / 2) * (IZR k + 1 / 2))
         / sqrt (IZR N / 2))%R.
Proof.
  intros HN HM. destruct M as [M|]; simpl in *.
  - eexists. split; [apply dct4_columns; lia|]. cbn [mshape entry].
    split; [f_equal; lia|]. intros k n Hk Hn.
    by rewrite !arange_float_nth by lia.
  - eexists. split; [apply dct4_nonzero; lia|]. cbn [mshape entry].
    split; [f_equal; lia|]. intros k n Hk Hn.
    by rewrite !arange_float_nth by lia.
Qed.


(** X3.  From column s = -((-N) // 2) on, the MDCT kernel is the DCT-IV
    kernel shifted by s columns. *)
Theorem mdct_shifted_dct4 (N M k n : Z) :
  0 < N -> 0 <= k < N ->
  - (- N / 2) <= n < 2 * N -> n - - (- N / 2) < M ->
  exists m d,
    mdct N = Ok m /\ dct4 N (Some M) = Ok d /\
    entry m k n = entry d k (n - - (- N / 2)).
Proof.
  intros HN Hk Hn HM.
  assert (Hs : 0 <= - (- N / 2))
    by (Z.to_euclidean_division_equations; lia).
  eexists _, _.
  split; [apply mdct_nonzero; lia|]. split; [apply dct4_columns; lia|].
  cbn [entry]. rewrite !arange_float_nth by lia.
  do 3 f_equal. rewrite minus_IZR, opp_IZR. lra.
Qed.

(** X4.  The first 2s columns of the MDCT kernel, s = -((-N) // 2), read
    the same from both ends: column n equals column 2s - 1 - n. *)
Theorem mdct_head_even (N k n : Z) :
  0 < N -> 0 <= k < N -> 0 <= n < 2 * - (- N / 2) ->
  exists m,
    mdct N = Ok m /\
    entry m k n = entry m k (2 * - (- N / 2) - 1 - n).
Proof.
  intros HN Hk Hn.
  assert (Hs : 2 * - (- N / 2) <= 2 * N)
    by (Z.to_euclidean_division_equations; lia).
  eexists. split; [apply mdct_nonzero; lia|].
  cbn [entry]. rewrite !arange_float_nth by lia.
  f_equal. rewrite <- cos_neg. f_equal.
  rewrite !minus_IZR, mult_IZR, !opp_IZR.
  assert (IZR N <> 0)%R by (apply eq_IZR_contrapositive; lia).
  field. done.
Qed.



End KernelSymmetries.

Section FoldingEdges.
Context {A : Type}.
Variables zero one : A.

Lemma slice_clipped (a b len : Z) :
  0 <= a <= len -> len <= b -> slice (Some a) (Some b) len = (a, len - a).
Proof.
  intros Ha Hb. unfold slice, slice_index.
  destruct (Z.ltb_spec a 0), (Z.ltb_spec b 0); try lia. f_equal; lia.
Qed.

Lemma setitem2_refused (m v : matrix A) (rs cs : Z * Z) :
  fits (mshape v).1 rs.2 && fits (mshape v).2 cs.2 = false ->
  setitem2 m rs cs v = Raise ValueError.
Proof. unfold setitem2. by intros ->. Qed.

Lemma fits_false (n target : Z) :
  n <> target -> n <> 1 -> fits n target = false.
Proof.
  intros H1 H2. unfold fits.
  by rewrite (proj2 (Z.eqb_neq _ _) H1), (proj2 (Z.eqb_neq _ _) H2).
Qed.

(** X6.  Apart from 2N-by-4N inputs and the broadcast corner case 2-by-3,
    every 2N-by-M input with M >= 2N and at least two columns makes
    [make_twoframe] raise [ValueError], with or without trimming. *)
Theorem make_twoframe_refuses (data : matrix A) (N M : Z) (trim : bool) :
  0 <= N -> mshape data = (2 * N, M) ->
  2 * N <= M -> 2 <= M -> M <> 4 * N -> ~ (N = 1 /\ M = 3) ->
  make_twoframe zero one data trim = Raise ValueError.
Proof.
  intros HN Hshape HM HM2 H4 H13. unfold make_twoframe.
  rewrite Hshape. cbn [fst snd].
  replace (2 * N / 2) with N by (rewrite Z.mul_comm, Z.div_mul; lia).
  rewrite (slice_both N (2 * N) M) by lia.
  rewrite (slice_from N (2 * N)), (slice_from (2 * N) M) by lia.
  destruct (Z.le_gt_cases (3 * N) M) as [Hbig|Hsmall].
  - rewrite (slice_both N (3 * N) M) by lia.
    rewrite setitem2_refused; [done|].
    unfold getitem2. cbn [mshape fst snd].
    rewrite (fits_false (M - 2 * N) (3 * N - N)) by lia.
    apply andb_false_r.
  - rewrite (slice_clipped N (3 * N) M) by lia.
    destruct (decide (M - 2 * N = 1)) as [Hone|Hmore].
    + unfold setitem2 at 1. unfold getitem2. cbn [mshape fst snd].
      unfold fits at 1 2. rewrite Z.eqb_refl.
      rewrite (proj2 (Z.eqb_eq (M - 2 * N) 1) Hone), orb_true_r.
      cbn [orb andb bindR].
      rewrite (slice_clipped (2 * N) (3 * N) M) by lia.
      rewrite (slice_upto N (2 * N)) by lia.
      rewrite setitem2_refused; [done|].
      cbn [mshape fst snd].
      by rewrite (fits_false N (M - 2 * N)) by lia.
    + rewrite setitem2_refused; [done|].
      unfold getitem2. cbn [mshape fst snd].
      rewrite (fits_false (M - 2 * N) (M - N)) by lia.
      apply andb_false_r.
Qed.

End FoldingEdges.

Section Frame.
Context {A : Type}.
Variable dot : list A -> list A -> A.
Implicit Types (h : heap A) (T : matrix A) (b p q r y : list A).

Lemma same_but_refl l h : same_but l h h.
Proof. by repeat split. Qed.

Lemma same_but_trans l h1 h2 h3 :
  same_but l h1 h2 -> same_but l h2 h3 -> same_but l h1 h3.
Proof.
  intros (Hl1 & Ho1 & Hb1) (Hl2 & Ho2 & Hb2). repeat split.
  - congruence.
  - intros k Hk. rewrite Ho2, Ho1; done.
  - congruence.
Qed.

Lemma cells_set_length ws : forall b b',
  cells_set b ws = Some b' -> length b' = length b.
Proof.
  induction ws as [|[o v] ws IH]; intros b b' Hset; simpl in Hset.
  - by simplify_eq.
  - unfold cell_set in Hset. case_decide; [|done].
    apply IH in Hset. by rewrite length_insert in Hset.
Qed.

Lemma write_row_frame a i y h h' :
  write_row a i y h = Ok (tt, h') -> same_but (buf a) h h'.
Proof.
  unfold write_row. intros Hw.
  destruct (h !! buf a) as [b|] eqn:Hb; [|done].
  destruct (cells_set b _) as [b'|] eqn:Hset; [|done]. simplify_eq.
  apply cells_set_length in Hset.
  assert (buf a < length h)%nat by (by eapply lookup_lt_Some).
  repeat split.
  - by rewrite length_insert.
  - intros k Hk. by apply list_lookup_insert_ne.
  - rewrite list_lookup_insert_eq, Hb by done. simpl. by rewrite Hset.
Qed.

Lemma transform_row_frame a T i h u h' :
  transform_row dot a T i h = Ok (u, h') -> same_but (buf a) h h'.
Proof.
  unfold transform_row. destruct (negb _); [done|].
  unfold bindM, read_row. destruct (row_of h a i) as [r|]; [|done].
  unfold set_row, bindM, liftR.
  destruct (broadcast_row _ _) as [y|]; [|done].
  destruct u. apply write_row_frame.
Qed.

Lemma transform_rows_frame a T idx : forall h u h',
  transform_rows dot a T idx h = Ok (u, h') -> same_but (buf a) h h'.
Proof.
  induction idx as [|i idx IH]; intros h u h' Hrun.
  - simpl in Hrun. unfold retM in Hrun. simplify_eq. apply same_but_refl.
  - rewrite transform_rows_cons in Hrun.
    destruct (transform_row dot a T i h) as [[u1 h1]|] eqn:Hstep; [|done].
    eapply same_but_trans; [by eapply transform_row_frame|by eapply IH].
Qed.

(** X7.  A successful [transform] returns its argument; it leaves the
    number of buffers, every buffer other than that of [x], and the length
    of the buffer of [x] unchanged. *)
Theorem transform_frame (x : ndarray) (T : matrix A) (h : heap A)
    (x' : ndarray) (h' : heap A) :
  transform dot x T h = Ok (x', h') ->
  x' = x /\
  length h' = length h /\
  (forall l, l <> buf x -> h' !! l = h !! l) /\
  length <$> h' !! buf x = length <$> h !! buf x.
Proof.
  unfold transform, bindM. intros Hrun.
  destruct (transform_rows dot x T _ h) as [[u h1]|] eqn:Hrows; [|done].
  unfold retM in Hrun. simplify_eq. split; [done|].
  by eapply transform_rows_frame.
Qed.

Lemma lap_copy_fresh x L h v h1 :
  lap x L true h = Ok (v, h1) ->
  buf v = length h /\ exists b, h1 = h ++ [b].
Proof.
  unfold lap, bindM, ndarray_copy, bindM, read_rows, alloc, retM.
  destruct (rows_of h x) as [rows|]; [|done].
  unfold liftR, as_strided. simpl. destruct (_ && _); [|done].
  intros Heq. simplify_eq. eauto.
Qed.

(** X8.  A transform applied to [lap x L] (with the default copy) leaves
    every buffer that existed before the call unchanged, hence also what
    [x] shows. *)
Theorem lap_copy_protects_input (x : ndarray) (T : matrix A) (L : Z)
    (h : heap A) (v : ndarray) (h' : heap A) :
  (do v <- lap x L true; transform dot v T) h = Ok (v, h') ->
  (forall l, (l < length h)%nat -> h' !! l = h !! l) /\
  ((buf x < length h)%nat -> rows_of h' x = rows_of h x).
Proof.
  unfold bindM at 1. intros Hrun.
  destruct (lap x L true h) as [[v1 h1]|] eqn:Hlap; [|done].
  destruct (lap_copy_fresh _ _ _ _ _ Hlap) as (Hbuf & b & ->).
  unfold transform, bindM in Hrun.
  destruct (transform_rows dot v1 T _ _) as [[u h2]|] eqn:Hrows; [|done].
  unfold retM in Hrun. simplify_eq.
  apply transform_rows_frame in Hrows as (_ & Hother & _).
  assert (Hold : forall l, (l < length h)%nat -> h' !! l = h !! l).
  { intros l Hl. rewrite Hother by lia. by apply lookup_app_l. }
  split; [done|]. intros Hx. apply rows_of_same_buffer. by apply Hold.
Qed.

End Frame.

Section ViewsOnly.
Context {A : Type}.
Implicit Types (h : heap A) (b p q r y : list A).

(** X9.  Without copies, [unlap] undoes [lap] exactly: the descriptor
    obtained is [x] itself and nothing is allocated, for every [x] whatever
    its strides, and also for [L = R + 1], where the lapped view has no
    rows. *)
Theorem unlap_lap_view (x : ndarray) (L R C : Z) (h : heap A) :
  shape x = (R, C) -> 0 <= C -> 1 <= L <= R + 1 ->
  (do v <- lap x L false; unlap v L false) h = Ok (x, h).
Proof.
  intros Hshape HC HL. unfold bindM at 1.
  assert (Hlap : lap x L false h
    = Ok (NdArray (buf x) (offset x) (R - L + 1, C * L) (strides x), h)).
  { unfold lap, bindM, retM, liftR, as_strided. rewrite Hshape. simpl.
    rewrite (proj2 (Z.leb_le 0 (R - L + 1))) by lia.
    by rewrite (proj2 (Z.leb_le 0 (C * L))) by nia. }
  rewrite Hlap.
  rewrite (unlap_view_ok h _ L (R - L + 1) C) by (simpl; try done; lia).
  simpl. replace (R - L + 1 + L - 1) with R by lia.
  destruct x as [l o shp str]. simpl in *. by subst.
Qed.

Lemma elems_of_segment h l pre b post n :
  h !! l = Some (pre ++ b ++ post) -> n = Z.of_nat (length b) ->
  elems_of h (FlatArray l (Z.of_nat (length pre)) n 1) = Some b.
Proof.
  intros Hb ->. unfold elems_of. simpl.
  rewrite (mapM_ext _ (cell (pre ++ b ++ post) ∘ Z.add (Z.of_nat (length pre)))).
  - rewrite <- mapM_fmap_compose. unfold arange.
    rewrite fmap_add_seqZ, Z.add_0_r. apply read_segment.
  - intros k. rewrite (peek_buffer _ _ _ _ Hb). simpl. f_equal.
    unfold faddr. simpl. lia.
Qed.

(** X10.  On a view of a C-ordered signal, [flatten] without copy
    allocates nothing: it returns a flat view that starts at the signal's
    data pointer in the signal's buffer and shows its samples in order. *)
Theorem flatten_view (h : heap A) (x : ndarray) (L C : Z)
    (pre post : list A) (rows : list (list A)) :
  h !! buf x = Some (pre ++ concat rows ++ post) ->
  offset x = Z.of_nat (length pre) ->
  shape x = (Z.of_nat (length rows), C) -> 0 <= C ->
  uniform C rows ->
  strides x = c_strides (shape x) ->
  1 <= L <= Z.of_nat (length rows) + 1 ->
  exists f,
    (do v <- lap x L false; flatten v L false) h = Ok (f, h) /\
    fbuf f = buf x /\ foffset f = offset x /\
    elems_of h f = Some (concat rows).
Proof.
  intros Hb Ho Hshape HC Hu Hs HL.
  exists (FlatArray (buf x) (offset x) (Z.of_nat (length rows) * C) 1).
  split; [|split; [done|split; [done|]]].
  - pose proof (unlap_lap_view x L _ C h Hshape HC HL) as Hview.
    unfold bindM at 1 in Hview. unfold bindM at 1.
    destruct (lap x L false h) as [[v h1]|]; [|done].
    unfold flatten, bindM. rewrite Hview. unfold ravel.
    destruct x as [l o shp str]. simpl in *. subst.
    by rewrite c_strides_contiguous.
  - rewrite Ho. apply (elems_of_segment h _ pre (concat rows) post); [done|].
    by rewrite (uniform_concat_length _ _ Hu).
Qed.

(** X11.  Whenever [copy] succeeds it has added exactly one buffer to the
    heap, existing buffers are as they were, and the result is a descriptor
    at the start of the new buffer with the shape and strides of the
    argument. *)
Theorem copy_allocates (x : ndarray) (L : Z) (h : heap A)
    (c : ndarray) (h' : heap A) :
  copy x L h = Ok (c, h') ->
  (exists b, h' = h ++ [b]) /\
  buf c = length h /\ offset c = 0 /\
  shape c = shape x /\ strides c = strides x.
Proof.
  unfold copy, flatten, unlap, bindM, liftR, floordiv. simpl.
  unfold as_strided. cbn [fst snd].
  destruct (_ && _); [|done]. simpl.
  unfold ndarray_copy, bindM, read_rows, alloc, retM.
  destruct (rows_of h _) as [rows|]; [|done].
  unfold ravel. rewrite c_strides_contiguous.
  unfold retM, lap_like, liftR, as_strided.
  destruct (_ && _); [|done]. simpl.
  intros Heq. simplify_eq. simpl. eauto 10.
Qed.

End ViewsOnly.

Section TransformEdges.
Context {A : Type}.
Variable dot : list A -> list A -> A.
Implicit Types (h : heap A) (T : matrix A) (b p q r y : list A).

(** X13.  On a signal with at least one (readable) row of C samples, a
    matrix that is neither C-by-C nor 1-by-C makes [transform] raise
    [ValueError]. *)
Theorem transform_shape_mismatch (x : ndarray) (T : matrix A) (h : heap A)
    (R C K C' : Z) :
  shape x = (R, C) -> 1 <= R -> mshape T = (K, C') -> 0 <= K ->
  is_Some (row_of h x 0) ->
  C' <> C \/ (K <> C /\ K <> 1) ->
  transform dot x T h = Raise ValueError.
Proof.
  intros Hshape HR HT HK [r Hr] Hbad. unfold transform, bindM.
  rewrite Hshape. simpl. unfold arange. rewrite seqZ_cons by lia.
  rewrite transform_rows_cons.
  assert (Hstep : transform_row dot x T 0 h = Raise ValueError);
    [|by rewrite Hstep].
  unfold transform_row. rewrite HT, Hshape. simpl.
  destruct (Z.eqb_spec C' C) as [->|Hne]; simpl; [|done].
  destruct Hbad as [?|[HKC HK1]]; [done|].
  unfold bindM, read_row. rewrite Hr. unfold set_row, bindM, liftR.
  assert (Hlen : length (matvec dot T r) = Z.to_nat K).
  { by rewrite matvec_length, HT. }
  unfold broadcast_row. rewrite Hshape. simpl.
  destruct (Z.eqb_spec (Z.of_nat (length (matvec dot T r))) C); [lia|].
  destruct (matvec dot T r) as [|v [|w l]]; simpl in *; try done. lia.
Qed.

Lemma transform_row_broadcast h a T i p r q y :
  h !! buf a = Some (p ++ r ++ q) ->
  (strides a).2 = 1 ->
  offset a + i * (strides a).1 = Z.of_nat (length p) ->
  (shape a).2 = Z.of_nat (length r) ->
  (mshape T).2 = (shape a).2 ->
  broadcast_row (shape a).2 (matvec dot T r) = Ok y ->
  length y = length r ->
  transform_row dot a T i h = Ok (tt, <[buf a := p ++ y ++ q]> h).
Proof.
  intros Hb Hs Ho Hc HT Hy Hlen. unfold transform_row.
  rewrite HT, Z.eqb_refl. simpl.
  unfold bindM, read_row. rewrite (row_of_segment h a i p r q) by done.
  unfold set_row, bindM, liftR. rewrite Hy.
  by apply (write_row_segment h a i p r q).
Qed.

(** The loop when the matrix has a single row. *)
Lemma transform_rows_single a T (c : Z) todo : forall p q n h,
  h !! buf a = Some (p ++ concat todo ++ q) ->
  strides a = (c, 1) -> (shape a).2 = c -> mshape T = (1, c) -> 1 < c ->
  offset a + n * c = Z.of_nat (length p) ->
  uniform c todo ->
  transform_rows dot a T (seqZ n (Z.of_nat (length todo))) h
  = Ok (tt, <[buf a := p ++ concat
                (map (fun r => replicate (Z.to_nat c) (dot (mrow T 0) r)) todo)
                ++ q]> h).
Proof.
  induction todo as [|r todo IH]; intros p q n h Hb Hs Hc HT Hc1 Ho Hu.
  { simpl. unfold retM. by rewrite list_insert_id. }
  apply Forall_cons in Hu as [Hr Hu].
  rewrite seqZ_cons by (simpl; lia). rewrite transform_rows_cons.
  simpl in Hb. rewrite <- app_assoc in Hb.
  set (y := replicate (Z.to_nat c) (dot (mrow T 0) r)).
  assert (Hy : length y = length r).
  { subst y. rewrite length_replicate. simpl in Hr. lia. }
  rewrite (transform_row_broadcast h a T n p r (concat todo ++ q) y);
    rewrite ?Hs, ?Hc, ?HT; simpl; try done; try lia.
  - replace (Z.pred (Z.of_nat (S (length todo))))
      with (Z.of_nat (length todo)) by lia.
    rewrite (IH (p ++ y) q (Z.succ n)); try done.
    + rewrite list_insert_insert_eq. by rewrite <- !app_assoc.
    + rewrite list_lookup_insert_eq by (by eapply lookup_lt_Some).
      by rewrite <- !app_assoc.
    + rewrite length_app. lia.
  - unfold broadcast_row, matvec. rewrite HT. cbn [fst snd].
    change (arange 1) with [0]. cbn [map length].
    by rewrite (proj2 (Z.eqb_neq _ _)) by lia.
Qed.

(** X14.  A one-row matrix is broadcast: on a C-ordered signal with rows
    of C > 1 samples, [transform] succeeds and every sample of a row becomes
    the inner product of the matrix row with that row. *)
Theorem transform_single_row_broadcast (h : heap A) (x : ndarray)
    (T : matrix A) (C : Z) (pre post : list A) (rows : list (list A)) :
  h !! buf x = Some (pre ++ concat rows ++ post) ->
  offset x = Z.of_nat (length pre) ->
  shape x = (Z.of_nat (length rows), C) ->
  uniform C rows ->
  strides x = c_strides (shape x) ->
  mshape T = (1, C) -> 1 < C ->
  exists h',
    transform dot x T h = Ok (x, h') /\
    rows_of h' x
    = Some (map (fun r => replicate (Z.to_nat C) (dot (mrow T 0) r)) rows).
Proof.
  intros Hb Ho Hshape Hu Hs HT HC.
  assert (Hstr : strides x = (C, 1)).
  { rewrite Hs, Hshape. unfold c_strides. simpl.
    by rewrite (proj2 (Z.eqb_neq C 0)) by lia. }
  eexists. split.
  - unfold transform, bindM. rewrite Hshape. simpl. unfold arange.
    rewrite (transform_rows_single x T C rows pre post 0 h);
      rewrite ?Hshape; try done. lia.
  - eapply rows_of_framed; try done.
    + rewrite list_lookup_insert_eq by (by eapply lookup_lt_Some). done.
    + by rewrite Hshape, length_map.
    + rewrite Hshape. simpl. apply Forall_map, Forall_forall.
      intros r _. simpl. rewrite length_replicate. lia.
Qed.

End TransformEdges.

(** ** Instances of the further properties *)

Lemma dct4_kernel_witness :
  exists m,
    dct4 2 (Some 3) = Ok m /\
    mshape m = (2, 3) /\
    forall k n, 0 <= k < 2 -> 0 <= n < 3 ->
      entry m k n
      = (cos (PI / IZR 2 * (IZR n + 1 / 2) * (IZR k + 1 / 2))
         / sqrt (IZR 2 / 2))%R.
Proof. apply (dct4_kernel 2 (Some 3)); simpl; lia. Defined.


Lemma mdct_shifted_dct4_witness :
  exists m d,
    mdct 3 = Ok m /\ dct4 3 (Some 4) = Ok d /\
    entry m 1 5 = entry d 1 (5 - - (- (3) / 2)).
Proof.
  apply (mdct_shifted_dct4 3 4 1 5); cbv; split; congruence || reflexivity.
Defined.

Lemma mdct_head_even_witness :
  exists m,
    mdct 3 = Ok m /\ entry m 1 0 = entry m 1 (2 * - (- (3) / 2) - 1 - 0).
Proof.
  apply (mdct_head_even 3 1 0); cbv; split; congruence || reflexivity.
Defined.


Lemma make_twoframe_refuses_witness :
  make_twoframe 0 1 ex_data22 true = Raise ValueError.
Proof.
  apply (make_twoframe_refuses 0 1 ex_data22 1 2 true);
    [lia|reflexivity|lia|lia|lia|lia].
Defined.

Lemma transform_frame_witness :
  ex_signal = ex_signal /\
  length [[31; 22; 37; 26; 43; 30]] = length ex_heap /\
  (forall l, l <> buf ex_signal ->
     [[31; 22; 37; 26; 43; 30]] !! l = ex_heap !! l) /\
  length <$> [[31; 22; 37; 26; 43; 30]] !! buf ex_signal
  = length <$> ex_heap !! buf ex_signal.
Proof.
  apply (transform_frame zdot ex_signal (ex_band 2) ex_heap). reflexivity.
Defined.

Lemma lap_copy_protects_input_witness :
  (forall l, (l < length ex_heap)%nat ->
     [[10; 11; 12; 13; 14; 15]; [31; 34; 100; 66; 43; 30]] !! l
     = ex_heap !! l) /\
  ((buf ex_signal < length ex_heap)%nat ->
   rows_of [[10; 11; 12; 13; 14; 15]; [31; 34; 100; 66; 43; 30]] ex_signal
   = rows_of ex_heap ex_signal).
Proof.
  apply (lap_copy_protects_input zdot ex_signal (ex_band 4) 2 ex_heap
           (NdArray 1%nat 0 (2, 4) (2, 1))).
  reflexivity.
Defined.

Lemma unlap_lap_view_witness :
  (do v <- lap ex_signal 3 false; unlap v 3 false) ex_heap
  = Ok (ex_signal, ex_heap).
Proof. apply (unlap_lap_view ex_signal 3 3 2 ex_heap); [reflexivity|lia|lia]. Defined.

Lemma flatten_view_witness :
  exists f,
    (do v <- lap ex_signal 2 false; flatten v 2 false) ex_heap
    = Ok (f, ex_heap) /\
    fbuf f = buf ex_signal /\ foffset f = offset ex_signal /\
    elems_of ex_heap f = Some (concat ex_frames).
Proof.
  apply (flatten_view ex_heap ex_signal 2 2 [] [] ex_frames);
    try reflexivity; try (simpl; lia).
  repeat constructor.
Defined.

Lemma copy_allocates_witness :
  (exists b, ex_heap ++ [[10; 11; 12; 12; 13; 14]] = ex_heap ++ [b]) /\
  buf (NdArray 1%nat 0 (1, 6) (2, 1)) = length ex_heap /\
  offset (NdArray 1%nat 0 (1, 6) (2, 1)) = 0 /\
  shape (NdArray 1%nat 0 (1, 6) (2, 1)) = shape ex_lapped3 /\
  strides (NdArray 1%nat 0 (1, 6) (2, 1)) = strides ex_lapped3.
Proof. apply (copy_allocates ex_lapped3 3 ex_heap). reflexivity. Defined.

Lemma copy_overlap_two_witness :
  copy ex_lapped2 7 ex_heap
  = Ok (NdArray 1%nat 0 (2, 4) (2, 1), ex_heap ++ [concat ex_frames]) /\
  rows_of (ex_heap ++ [concat ex_frames]) (NdArray 1%nat 0 (2, 4) (2, 1))
  = rows_of ex_heap ex_lapped2 /\
  forall i j w h' a,
    setitem (NdArray 1%nat 0 (2, 4) (2, 1)) i j w
      (ex_heap ++ [concat ex_frames]) = Ok (tt, h') ->
    buf a = buf ex_signal -> rows_of h' a = rows_of ex_heap a.
Proof.
  refine (copy_overlap_two ex_heap ex_signal 2 7 [] [] [10; 11]
            [[12; 13]; [14; 15]] _ _ _ _);
    try reflexivity.
  repeat constructor.
Defined.

Lemma transform_shape_mismatch_witness :
  transform zdot ex_signal ex_tall ex_heap = Raise ValueError.
Proof.
  apply (transform_shape_mismatch zdot ex_signal ex_tall ex_heap 3 2 3 2);
    [reflexivity|lia|reflexivity|lia|by eexists|right; lia].
Defined.

Lemma transform_single_row_broadcast_witness :
  exists h',
    transform zdot ex_signal ex_flat ex_heap = Ok (ex_signal, h') /\
    rows_of h' ex_signal
    = Some (map (fun r => replicate (Z.to_nat 2) (zdot (mrow ex_flat 0) r))
              ex_frames).
Proof.
  apply (transform_single_row_broadcast zdot ex_heap ex_signal ex_flat 2
           [] [] ex_frames);
    try reflexivity.
  repeat constructor.
Defined.
